(** * calc-freq.py: the Icelandic inflection evaluation-data generator

    A shallow embedding of [calc-freq.py] and the properties of its
    bucketing, sampling and generation pipeline.

    - Python [str] is a list of Unicode code points ([list N]).
    - Python [int] is [Z].
    - A [set] is a [gset]; the [defaultdict] that [Buckets.write] iterates
      is an insertion-ordered association list, the one that is only
      indexed is a [gmap].
    - The file system, the random generator and the log of calls made to
      the dictionary and frequency databases form the [World] that every
      effectful function threads; exceptions are outcomes of the monad.
    - The BÍN dictionary, the icegrams database, the noun-phrase engine,
      [json.dumps] and the Unicode case tables are not part of the
      repository: they are the variables of the sections below. *)

From stdpp Require Import gmap strings list fin_maps pretty.
From Stdlib Require Import ZArith Lia Ascii.

Set Default Proof Using "Type".

(** ** Strings *)

Abbreviation char := N (only parsing).
Abbreviation str := (list N) (only parsing).

(** An ASCII literal as a list of code points. *)
Definition lit (s : string) : str :=
  N_of_ascii <$> String.list_ascii_of_string s.

Definition NL : char := 10%N.
Definition CR : char := 13%N.
Definition COMMA : char := 44%N.

(** [str.isspace] on one character: the characters [str.strip()] removes. *)
Definition isspace (c : char) : bool :=
  ((9 <=? c) && (c <=? 13) || (28 <=? c) && (c <=? 32)
   || (c =? 133) || (c =? 160) || (c =? 5760)
   || (8192 <=? c) && (c <=? 8202)
   || (c =? 8232) || (c =? 8233) || (c =? 8239) || (c =? 8287)
   || (c =? 12288))%N.

Fixpoint lstrip (s : str) : str :=
  match s with
  | [] => []
  | c :: s' => if isspace c then lstrip s' else s
  end.

Definition rstrip (s : str) : str := rev (lstrip (rev s)).

(** [s.strip()] *)
Definition strip (s : str) : str := lstrip (rstrip s).

(** [s.split(sep)] for a one-character separator: never the empty list. *)
Fixpoint split (sep : char) (s : str) : list str :=
  match s with
  | [] => [[]]
  | c :: s' =>
      if (c =? sep)%N then [] :: split sep s'
      else match split sep s' with
           | [] => [[c]]
           | f :: fs => (c :: f) :: fs
           end
  end.

(** [s.endswith(suffix)] *)
Definition endswith (s suffix : str) : bool :=
  bool_decide (drop (length s - length suffix) s = suffix).

(** [str(n)] for an [int]. *)
Definition str_of_int (n : Z) : str := lit (pretty n).

(** Iterating a file opened in text mode: universal newlines, every line
    but possibly the last ends in a line feed. [cur] is the line read so
    far, reversed. *)
Fixpoint readlines_from (cur : str) (s : str) : list str :=
  match s with
  | [] => match cur with [] => [] | _ => [rev cur] end
  | c :: s' =>
      if (c =? NL)%N then rev (NL :: cur) :: readlines_from [] s'
      else if (c =? CR)%N then
        match s' with
        | c' :: s'' =>
            if (c' =? NL)%N then rev (NL :: cur) :: readlines_from [] s''
            else rev (NL :: cur) :: readlines_from [] s'
        | [] => rev (NL :: cur) :: readlines_from [] s'
        end
      else readlines_from (c :: cur) s'
  end.

Definition readlines (content : str) : list str := readlines_from [] content.

(** ** Constants *)

Definition AVOID_ADJECTIVES : gset str := {[ lit "gar" ]}.

(** "nam", "góða", "ex", "virt", "óþörf", "rift" *)
Definition AVOID_NOUNS : gset str :=
  {[ lit "nam"; [103; 243; 240; 97]%N; lit "ex"; lit "virt";
     [243; 254; 246; 114; 102]%N; lit "rift" ]}.

Definition MAX_BUCKETS : Z := 3.
Definition NUM_NOUN_SAMPLES : Z := 1000.
Definition NUM_ADJECTIVE_SAMPLES : Z := 500.

Definition DIFFICULTY (b : Z) : option str :=
  if (b =? 0)%Z then Some (lit "hard")
  else if (b =? 1)%Z then Some (lit "medium")
  else if (b =? 2)%Z then Some (lit "easy")
  else None.

(** ** The frequency bucketer *)

(** [int(math.log10(freq))] for [freq >= 2]: the integer part of the
    decimal logarithm. [math.log10] returns the double nearest the real
    logarithm, so its truncation can differ from the exact integer part
    only right below a power of ten from 10^15 on; [bucket] has capped
    the value at [MAX_BUCKETS - 1] long before. *)
Fixpoint log10_iter (fuel : nat) (n : Z) : Z :=
  match fuel with
  | O => 0
  | S k => if (n <? 10)%Z then 0%Z else (1 + log10_iter k (n / 10))%Z
  end.

Definition int_log10 (n : Z) : Z := log10_iter (S (Z.to_nat (Z.log2 n))) n.

Definition bucket (freq : Z) : Z :=
  if (freq <=? 1)%Z then 0%Z
  else Z.min (MAX_BUCKETS - 1) (int_log10 freq).

(** ** Effects: files, random draws, database calls, exceptions *)

Inductive exn :=
  | IndexError | ValueError | KeyError | AssertionError | FileNotFoundError.

#[global] Instance exn_eq_dec : EqDecision exn.
Proof. solve_decision. Defined.

(** A call to the dictionary ([b]) or to the frequency database ([ngrams]). *)
Inductive Query :=
  | QLookupLemmas (w : str)
  | QLookup (w : str)
  | QLookupVariants (w cat : str) (tags : list str)
  | QFreq (w : str).

Record World := mkWorld {
  fs : gmap str str;      (* the data directory: file name to contents *)
  rng : nat → nat;        (* the numbers the random generator produces *)
  drawn : nat;            (* how many of them have been drawn *)
  queries : list Query    (* database calls made so far, latest first *)
}.

Inductive outcome (A : Type) :=
  | Ret (a : A)           (* normal completion *)
  | Raise (e : exn)       (* an exception propagates *)
  | OutOfFuel.            (* the loop bound of the model was reached *)
Arguments Ret {A} a.
Arguments Raise {A} e.
Arguments OutOfFuel {A}.

Definition M (A : Type) : Type := World → outcome A * World.

#[global] Instance M_ret : MRet M := λ A a σ, (Ret a, σ).

#[global] Instance M_bind : MBind M := λ A B f m σ,
  match m σ with
  | (Ret a, σ') => f a σ'
  | (Raise e, σ') => (Raise e, σ')
  | (OutOfFuel, σ') => (OutOfFuel, σ')
  end.

Definition raise {A} (e : exn) : M A := λ σ, (Raise e, σ).

Definition out_of_fuel {A} : M A := λ σ, (OutOfFuel, σ).

(** A computation that touches nothing, with its outcome. *)
Definition resume {A} (r : outcome A) : M A := λ σ, (r, σ).

(** [try: body except e: handler] *)
Definition try_except {A} (body : M A) (e : exn) (handler : M A) : M A := λ σ,
  match body σ with
  | (Raise e', σ') => if decide (e' = e) then handler σ' else (Raise e', σ')
  | r => r
  end.

(** [for x in l: s = body(s, x)] *)
Fixpoint for_each {A S} (l : list A) (body : S → A → M S) (s : S) : M S :=
  match l with
  | [] => mret s
  | x :: l' => s' ← body s x; for_each l' body s'
  end.

(** [file(name, "r")] read to the end: the contents, or [FileNotFoundError]. *)
Definition open_r (f : str) : M str := λ σ,
  match fs σ !! f with
  | Some content => (Ret content, σ)
  | None => (Raise FileNotFoundError, σ)
  end.

(** [file(name, "w")]: the file is created or truncated. *)
Definition open_w (f : str) : M unit := λ σ,
  (Ret (), mkWorld (<[f := []]> (fs σ)) (rng σ) (drawn σ) (queries σ)).

(** [out.write(s)] on a file opened by [open_w]. *)
Definition file_write (f : str) (s : str) : M unit := λ σ,
  (Ret (), mkWorld (alter (λ content, content ++ s) f (fs σ))
             (rng σ) (drawn σ) (queries σ)).

(** One draw of the generator: a number below [n]. *)
Definition randbelow (n : nat) : M nat := λ σ,
  (Ret (rng σ (drawn σ) mod n),
   mkWorld (fs σ) (rng σ) (S (drawn σ)) (queries σ)).

(** [k] draws without replacement, each among what is left of the pool. *)
Fixpoint sample_draws {A} (pool : list A) (k : nat) : M (list A) :=
  match k with
  | O => mret []
  | S k' =>
      j ← randbelow (length pool);
      match pool !! j with
      | Some x => rest ← sample_draws (delete j pool) k'; mret (x :: rest)
      | None => mret []
      end
  end.

(** [random.sample(population, k)] *)
Definition random_sample {A} (population : list A) (k : Z) : M (list A) :=
  if ((k <? 0) || (Z.of_nat (length population) <? k))%Z then raise ValueError
  else sample_draws population (Z.to_nat k).

(** [random.choice(seq)] *)
Definition random_choice {A} (seq : list A) : M A :=
  match seq with
  | [] => raise IndexError
  | x :: _ => j ← randbelow (length seq); mret (nth j seq x)
  end.

(** [seq[0]] *)
Definition item0 {A} (seq : list A) : M A :=
  match seq with
  | [] => raise IndexError
  | x :: _ => mret x
  end.

Definition log_query (q : Query) : M unit := λ σ,
  (Ret (), mkWorld (fs σ) (rng σ) (drawn σ) (q :: queries σ)).

(** ** The databases *)

(** An entry of the dictionary, with the fields the program reads: lemma,
    category and surface form. *)
Record BinEntry := mkEntry { ord : str; ofl : str; bmynd : str }.

(** [islenska.Bin]: the three lookups the program calls. *)
Record Bin := mkBin {
  bin_lookup_lemmas : str → str * list BinEntry;
  bin_lookup : str → str * list BinEntry;
  bin_lookup_variants : str → str → list str → list BinEntry
}.

Definition b_lookup_lemmas (b : Bin) (lemma : str) : M (str * list BinEntry) :=
  log_query (QLookupLemmas lemma);; mret (bin_lookup_lemmas b lemma).

Definition b_lookup (b : Bin) (w : str) : M (str * list BinEntry) :=
  log_query (QLookup w);; mret (bin_lookup b w).

Definition b_lookup_variants (b : Bin) (w cat : str) (tags : list str)
  : M (list BinEntry) :=
  log_query (QLookupVariants w cat tags);; mret (bin_lookup_variants b w cat tags).

(** [ngrams.freq(wordform)] for the frequency table [ngrams]. *)
Definition ngrams_freq (ngrams : str → Z) (wordform : str) : M Z :=
  log_query (QFreq wordform);; mret (ngrams wordform).

(** ** class Buckets *)

Record Buckets := mkBuckets {
  name : str;
  buckets : list (Z * gset str);   (* defaultdict(set), in insertion order *)
  lemmas : gmap Z (list str)       (* defaultdict(list) *)
}.

(** [Buckets(name)] *)
Definition Buckets_new (name : str) : Buckets := mkBuckets name [] ∅.

(** [d[b].add(lemma)] on a [defaultdict(set)] *)
Fixpoint dict_add (b : Z) (lemma : str) (d : list (Z * gset str))
  : list (Z * gset str) :=
  match d with
  | [] => [(b, {[ lemma ]})]
  | (k, s) :: d' =>
      if decide (k = b) then (k, s ∪ {[ lemma ]}) :: d'
      else (k, s) :: dict_add b lemma d'
  end.

(** The set stored under [b], empty when there is none. *)
Fixpoint dict_get (b : Z) (d : list (Z * gset str)) : gset str :=
  match d with
  | [] => ∅
  | (k, s) :: d' => if decide (k = b) then s else dict_get b d'
  end.

Definition add (self : Buckets) (lemma : str) (freq : Z) : Buckets :=
  let b := bucket freq in
  mkBuckets (name self) (dict_add b lemma (buckets self)) (lemmas self).

(** The file name [f"{self.name}-{bucket}.txt"]. *)
Definition bucket_file (name : str) (bucket : Z) : str :=
  name ++ lit "-" ++ str_of_int bucket ++ lit ".txt".

(** The body of the loop of [Buckets.write] for one item of [self.buckets]. *)
Definition write_bucket (name : str) (limit : Z) (_ : unit)
    (item : Z * gset str) : M unit :=
  let '(bucket, lemmas) := item in
  if (Z.of_nat (size lemmas) <? 1)%Z then mret ()
  else
    let out := bucket_file name bucket in
    open_w out;;
    let llist := elements lemmas in
    let samples := Z.min limit (Z.of_nat (length llist)) in
    sampled ← random_sample llist samples;
    for_each sampled (λ _ lemma, file_write out (lemma ++ [NL])) ().

Definition write (self : Buckets) (limit : Z) : M unit :=
  for_each (buckets self) (write_bucket (name self) limit) ().

(** The lines kept by the loop of [Buckets.read], and by the generators:
    stripped, blank ones dropped. *)
Definition stripped_lines (content : str) : list str :=
  filter (λ line, line ≠ []) (strip <$> readlines content).

Definition read (self : Buckets) (bucket : Z) : M Buckets :=
  (* bu = self.lemmas[bucket], which creates the entry when it is missing *)
  let bu := default [] (lemmas self !! bucket) in
  let self := mkBuckets (name self) (buckets self) (<[bucket := bu]> (lemmas self)) in
  try_except
    (inp ← open_r (bucket_file (name self) bucket);
     mret (mkBuckets (name self) (buckets self)
             (<[bucket := bu ++ stripped_lines inp]> (lemmas self))))
    FileNotFoundError
    (if decide (length bu = 0) then mret self else raise AssertionError).

Definition choose (self : Buckets) (bucket : Z) : M (str * Buckets) :=
  self ← (if decide (bucket ∈ dom (lemmas self)) then mret self
          else read self bucket);
  lemma ← random_choice (default [] (lemmas self !! bucket));
  mret (lemma, self).

(** ** The generators and the corpus processors *)

Section Generators.
(** [str.isupper] on one character: a table of the Unicode database. *)
Variable isupper : char → bool.

(** What [noun_generator] does with one line of its file: nothing, a
    yield, or the [IndexError] of [lemma[0]]. *)
Definition noun_generator_line (line : str) : outcome (option (str * str)) :=
  let line := strip line in
  if decide (line ≠ []) then
    match split COMMA line with
    | [lemma; gender] =>
        match lemma with
        | [] => Raise IndexError
        | c :: _ =>
            if isupper c then Ret None
            else Ret (Some (lemma, gender))
        end
    | _ => Ret None
    end
  else Ret None.

(** What [adjective_generator] does with one line of its file. *)
Definition adjective_generator_line (line : str) : option str :=
  let line := strip line in
  if decide (line ≠ []) then Some line else None.
End Generators.

Section Processors.
Variable isupper : char → bool.
Variable b : Bin.
Variable ngrams : str → Z.

(** [any(any(test(e) for e in b.lookup(wf)[1]) for wf in w)] *)
Fixpoint any_lookup (test : BinEntry → bool) (w : list str) : M bool :=
  match w with
  | [] => mret false
  | wf :: w' =>
      r ← b_lookup b wf;
      if existsb test r.2 then mret true else any_lookup test w'
  end.

(** [sum(ngrams.freq(wordform) for wordform in w)] *)
Fixpoint sum_freq (w : list str) : M Z :=
  match w with
  | [] => mret 0%Z
  | wordform :: w' => n ← ngrams_freq ngrams wordform; s ← sum_freq w'; mret (n + s)%Z
  end.

(** The body of the loop of [process_nouns]. *)
Definition process_noun (noun_buckets : Buckets) (lemma gender : str)
  : M Buckets :=
  r ← b_lookup_lemmas b lemma;
  let forms := r.2 in
  if bool_decide (length forms ≠ 1)
     || bool_decide (ofl <$> head forms ≠ Some gender)
  then mret noun_buckets
  else
    r ← b_lookup b lemma;
    let forms := r.2 in
    let w : gset str :=
      list_to_set (bmynd <$> filter (λ f, ord f = lemma ∧ ofl f = gender) forms) in
    ambiguous ← any_lookup
      (λ e, bool_decide (ofl e ≠ gender) || bool_decide (ord e ≠ lemma))
      (elements w);
    if ambiguous : bool then mret noun_buckets
    else
      freq ← sum_freq (elements w);
      mret (add noun_buckets lemma freq).

Definition process_nouns : M unit :=
  let noun_buckets := Buckets_new (lit "nouns") in
  inp ← open_r (lit "nouns.csv");
  noun_buckets ← for_each (readlines inp) (λ noun_buckets line,
      item ← resume (noun_generator_line isupper line);
      match item with
      | Some (lemma, gender) => process_noun noun_buckets lemma gender
      | None => mret noun_buckets
      end) noun_buckets;
  write noun_buckets NUM_NOUN_SAMPLES.

(** The body of the loop of [process_adjectives]. *)
Definition process_adjective (adj_buckets : Buckets) (lemma : str)
  : M Buckets :=
  if endswith lemma (lit "legur") then mret adj_buckets
  else if bool_decide (lemma ∈ AVOID_ADJECTIVES) then mret adj_buckets
  else
    r ← b_lookup_lemmas b lemma;
    let forms := r.2 in
    if bool_decide (length forms ≠ 1)
       || bool_decide (ofl <$> head forms ≠ Some (lit "lo"))
    then mret adj_buckets
    else
      r ← b_lookup b lemma;
      let forms := r.2 in
      let w : gset str :=
        list_to_set (bmynd <$> filter (λ f, ord f = lemma ∧ ofl f = lit "lo") forms) in
      ambiguous ← any_lookup
        (λ e, bool_decide (ofl e ≠ lit "lo") || bool_decide (ord e ≠ lemma))
        (elements w);
      if ambiguous : bool then mret adj_buckets
      else
        freq ← sum_freq (elements w);
        mret (add adj_buckets lemma freq).

Definition process_adjectives : M unit :=
  let adj_buckets := Buckets_new (lit "adj") in
  inp ← open_r (lit "adjectives.csv");
  adj_buckets ← for_each (readlines inp) (λ adj_buckets line,
      match adjective_generator_line line with
      | Some lemma => process_adjective adj_buckets lemma
      | None => mret adj_buckets
      end) adj_buckets;
  write adj_buckets NUM_ADJECTIVE_SAMPLES.
End Processors.

(** ** The example generator *)

(** The values handed to [json.dumps]. *)
Unset Elimination Schemes.
Inductive json :=
  | JStr (s : str)
  | JList (items : list json)
  | JDict (items : list (str * json)).
Set Elimination Schemes.

(** "þf", "þgf" and the two prompts. *)
Definition THF : str := [254; 102]%N.
Definition THGF : str := [254; 103; 102]%N.

(** "Þú ert sérfræðingur í íslenskri málfræði." *)
Definition SYSTEM_CONTENT : str :=
  [222; 250; 32; 101; 114; 116; 32; 115; 233; 114; 102; 114; 230; 240; 105;
   110; 103; 117; 114; 32; 237; 32; 237; 115; 108; 101; 110; 115; 107; 114;
   105; 32; 109; 225; 108; 102; 114; 230; 240; 105; 46]%N.

(** The user question up to and including the opening quote. *)
Definition USER_CONTENT_HEAD : str :=
  [72; 118; 101; 114; 110; 105; 103; 32; 102; 97; 108; 108; 98; 101; 121;
   103; 105; 115; 116; 32; 110; 97; 102; 110; 108; 105; 240; 117; 114; 105;
   110; 110; 32; 34]%N.

(** The user question from the closing quote on. *)
Definition USER_CONTENT_TAIL : str :=
  [34; 32; 237; 32; 246; 108; 108; 117; 109; 32; 102; 246; 108; 108; 117;
   109; 32; 40; 110; 102; 44; 32; 254; 102; 44; 32; 254; 103; 102; 44; 32;
   101; 102; 41; 44; 32; 101; 105; 110; 116; 246; 108; 117; 32; 40; 101;
   116; 41; 32; 111; 103; 32; 102; 108; 101; 105; 114; 116; 246; 108; 117;
   32; 40; 102; 116; 41; 44; 32; 225; 110; 32; 103; 114; 101; 105; 110; 105;
   115; 63; 32; 83; 118; 97; 114; 97; 240; 117; 32; 237; 32; 74; 83; 79; 78;
   32; 102; 111; 114; 109; 105; 32; 101; 105; 110; 103; 246; 110; 103; 117;
   46]%N.

(** The state of the loop of [generate]: the counter [c] and the two
    bucket stores, which [choose] fills on first use. *)
Record GenState := mkGen {
  gen_c : Z;
  adj_buckets : Buckets;
  noun_buckets : Buckets
}.

Section Generate.
Variable b : Bin.
(** [str.upper] *)
Variable upper : str → str.
(** [f"{NounPhrase(text, force_number=number):case}"] *)
Variable NounPhrase : str → str → str → str.
(** [functools.partial(json.dumps, ensure_ascii=False)] *)
Variable jdump : json → str.

(** The four cases of a noun phrase, as the [completion] dict has them. *)
Definition cases (text number : str) : json :=
  JDict [ (lit "nf", JStr (NounPhrase text number (lit "nf")));
          (THF, JStr (NounPhrase text number THF));
          (THGF, JStr (NounPhrase text number THGF));
          (lit "ef", JStr (NounPhrase text number (lit "ef"))) ].

Definition example (adj noun adj_ft noun_ft : str) : json :=
  let nl := adj ++ lit " " ++ noun in
  let nl_ft := adj_ft ++ lit " " ++ noun_ft in
  let completion :=
    JDict [ (lit "et", cases nl (lit "et")); (lit "ft", cases nl_ft (lit "ft")) ] in
  JDict [
    (lit "input", JList [
       JDict [ (lit "role", JStr (lit "system"));
               (lit "content", JStr SYSTEM_CONTENT) ];
       JDict [ (lit "role", JStr (lit "user"));
               (lit "content",
                JStr (USER_CONTENT_HEAD ++ adj ++ lit " " ++ noun
                      ++ USER_CONTENT_TAIL)) ] ]);
    (lit "ideal", JStr (jdump completion)) ].

(** One turn of the [while] loop of [generate], writing to the file [out]
    for the bucket [bucket]. *)
Definition generate_draw (out : str) (bucket : Z) (st : GenState) : M GenState :=
  '(adj_lemma, adj_buckets) ← choose (adj_buckets st) bucket;
  '(noun, noun_buckets) ← choose (noun_buckets st) bucket;
  r ← b_lookup b noun;
  e ← item0 r.2;
  let gender := ofl e in
  v ← b_lookup_variants b adj_lemma (lit "lo")
        [upper gender; lit "FSB"; lit "NF"; lit "ET"];
  e ← item0 v;
  let adj := bmynd e in
  v ← b_lookup_variants b adj_lemma (lit "lo")
        [upper gender; lit "FSB"; lit "NF"; lit "FT"];
  e ← item0 v;
  let adj_ft := bmynd e in
  plural ← try_except
    (v ← b_lookup_variants b noun gender [lit "NF"; lit "FT"];
     e ← item0 v;
     mret (Some (bmynd e)))
    IndexError
    (mret None);
  match plural with
  | None => mret (mkGen (gen_c st) adj_buckets noun_buckets)
  | Some noun_ft =>
      file_write out (jdump (example adj noun adj_ft noun_ft) ++ [NL]);;
      mret (mkGen (gen_c st + 1) adj_buckets noun_buckets)
  end.

(** [while c < count: ...], for at most [fuel] turns. *)
Fixpoint generate_loop (fuel : nat) (count : Z) (out : str) (bucket : Z)
    (st : GenState) : M GenState :=
  if (gen_c st <? count)%Z then
    match fuel with
    | O => out_of_fuel
    | S fuel' =>
        st' ← generate_draw out bucket st;
        generate_loop fuel' count out bucket st'
    end
  else mret st.

(** The body of [for bucket in range(MAX_BUCKETS)]. *)
Definition generate_bucket (fuel : nat) (count : Z)
    (stores : Buckets * Buckets) (bucket : Z) : M (Buckets * Buckets) :=
  match DIFFICULTY bucket with
  | None => raise KeyError
  | Some difficulty =>
      let out := lit "icelandic-inflection-" ++ difficulty ++ lit ".jsonl" in
      open_w out;;
      st ← generate_loop fuel count out bucket (mkGen 0 stores.1 stores.2);
      mret (adj_buckets st, noun_buckets st)
  end.

Definition generate (fuel : nat) (count : Z) : M unit :=
  let adj_buckets := Buckets_new (lit "adj") in
  let noun_buckets := Buckets_new (lit "nouns") in
  for_each (seqZ 0 MAX_BUCKETS) (generate_bucket fuel count)
    (adj_buckets, noun_buckets);;
  mret ().
End Generate.

(** ** The command line *)

(** The command line of the program: the three flags. *)
Record Args := mkArgs {
  args_nouns : bool;
  args_adjectives : bool;
  args_generate : bool
}.

Section Main.
Variable isupper : char → bool.
Variable b : Bin.
Variable ngrams : str → Z.
Variable upper : str → str.
Variable NounPhrase : str → str → str → str.
Variable jdump : json → str.

(** The body of [if __name__ == "__main__"], after the arguments are
    parsed. *)
Definition main (fuel : nat) (args : Args) : M unit :=
  if args_generate args then generate b upper NounPhrase jdump fuel 10
  else if args_nouns args then process_nouns isupper b ngrams
  else if args_adjectives args then process_adjectives b ngrams
  else (process_nouns isupper b ngrams;; process_adjectives b ngrams).
End Main.

(** ** Vocabulary of the properties *)

(** The contents of a file written one line per element of [ls]. *)
Definition file_of_lines (ls : list str) : str :=
  concat ((λ l, l ++ [NL]) <$> ls).

(** A lemma that survives a bucket file: not empty, no white space at
    either end, no line break inside. *)
Definition storable (l : str) : Prop :=
  l ≠ [] ∧ strip l = l ∧ (NL ∉ l) ∧ (CR ∉ l).

(** A line as the iteration of a text file gives it: no line break but a
    line feed at its end, which only the last line of a file can lack. *)
Definition line_of (line : str) : Prop :=
  ∃ body, (line = body ++ [NL] ∨ line = body) ∧ (NL ∉ body) ∧ (CR ∉ body).

(** The keys of a [dict] are distinct. *)
Definition dict_wf (d : list (Z * gset str)) : Prop := NoDup d.*1.

(** The sample that [sample_draws] returns, from the numbers of the
    generator and the count of those already drawn. *)
Fixpoint draws {A} (rng : nat → nat) (drawn : nat) (pool : list A) (k : nat)
  : list A :=
  match k with
  | O => []
  | S k' =>
      let j := rng drawn mod length pool in
      match pool !! j with
      | Some x => x :: draws rng (S drawn) (delete j pool) k'
      | None => []
      end
  end.

(** The number of lemmas written for a bucket of [n] lemmas. *)
Definition samples (limit : Z) (n : nat) : nat :=
  Z.to_nat (Z.min limit (Z.of_nat n)).

#[global] Instance storable_dec l : Decision (storable l).
Proof. unfold storable. apply _. Defined.

(** A world that differs from [σ] by the database calls [qs], latest
    first. *)
Definition with_queries (σ : World) (qs : list Query) : World :=
  mkWorld (fs σ) (rng σ) (drawn σ) (qs ++ queries σ).

(** The filters of the corpus processors, as the specification words
    them. *)
Section Filters.
Variable b : Bin.
Variable ngrams : str → Z.

(** Exactly one meaning, and of the category asked for. *)
Definition single_meaning (lemma category : str) : bool :=
  match (bin_lookup_lemmas b lemma).2 with
  | [f] => bool_decide (ofl f = category)
  | _ => false
  end.

(** The distinct surface forms of the (lemma, category) pair. *)
Definition word_forms (lemma category : str) : gset str :=
  list_to_set
    (bmynd <$> filter (λ f, ord f = lemma ∧ ofl f = category)
                 (bin_lookup b lemma).2).

(** No word form is claimed by another (lemma, category) pair. *)
Definition unambiguous (lemma category : str) : bool :=
  forallb (λ wf,
      forallb (λ e, bool_decide (ofl e = category) && bool_decide (ord e = lemma))
        (bin_lookup b wf).2)
    (elements (word_forms lemma category)).

(** The sum of the corpus counts of the word forms. *)
Definition frequency (lemma category : str) : Z :=
  foldr (λ wf total, (ngrams wf + total)%Z) 0%Z
    (elements (word_forms lemma category)).

(** Steps 2 to 5 of the filter: the store after one candidate. *)
Definition filtered (store : Buckets) (lemma category : str) : Buckets :=
  if single_meaning lemma category && unambiguous lemma category
  then add store lemma (frequency lemma category)
  else store.
End Filters.

(** The two exclusions of the adjective processor. *)
Definition excluded_adjective (lemma : str) : bool :=
  endswith lemma (lit "legur") || bool_decide (lemma ∈ AVOID_ADJECTIVES).

(** The store after one line of [adjectives.csv], and after one line of
    [nouns.csv] that does not raise. *)
Definition adjective_step (b : Bin) (ngrams : str → Z) (store : Buckets)
    (line : str) : Buckets :=
  match adjective_generator_line line with
  | Some lemma =>
      if excluded_adjective lemma then store
      else filtered b ngrams store lemma (lit "lo")
  | None => store
  end.

Definition noun_step (isupper : char → bool) (b : Bin) (ngrams : str → Z)
    (store : Buckets) (line : str) : Buckets :=
  match noun_generator_line isupper line with
  | Ret (Some (lemma, gender)) => filtered b ngrams store lemma gender
  | _ => store
  end.

(** ** A small dictionary for the examples *)

Definition toy_entries : list BinEntry :=
  [ mkEntry (lit "hestur") (lit "kk") (lit "hestur");
    mkEntry (lit "hestur") (lit "kk") (lit "hestar");
    mkEntry (lit "kaffi") (lit "hk") (lit "kaffi");
    mkEntry (lit "nam") (lit "hk") (lit "nam");
    mkEntry (lit "gulur") (lit "lo") (lit "gulur");
    mkEntry (lit "gulur") (lit "lo") (lit "gulir");
    mkEntry (lit "Danskur") (lit "lo") (lit "Danskur") ].

(** The forms [lookup_variants] finds: lemma, category, tags, form. *)
Definition toy_variants : list (str * str * list str * str) :=
  [ (lit "hestur", lit "kk", [lit "NF"; lit "FT"], lit "hestar");
    (lit "gulur", lit "lo", [lit "KK"; lit "FSB"; lit "NF"; lit "ET"], lit "gulur");
    (lit "gulur", lit "lo", [lit "KK"; lit "FSB"; lit "NF"; lit "FT"], lit "gulir");
    (lit "gulur", lit "lo", [lit "HK"; lit "FSB"; lit "NF"; lit "ET"], lit "gult");
    (lit "gulur", lit "lo", [lit "HK"; lit "FSB"; lit "NF"; lit "FT"], lit "gul") ].

Definition toy_bin : Bin :=
  mkBin
    (λ w, (w, filter (λ e, ord e = w ∧ bmynd e = w) toy_entries))
    (λ w, (w, filter (λ e, bmynd e = w) toy_entries))
    (λ w cat tags,
       (λ v, mkEntry w cat v.2)
       <$> filter (λ v, v.1 = (w, cat, tags)) toy_variants).

Definition toy_ngrams (w : str) : Z :=
  if decide (w = lit "hestur") then 200%Z
  else if decide (w = lit "hestar") then 80%Z
  else if decide (w = lit "nam") then 42%Z
  else if decide (w = lit "Danskur") then 3%Z
  else 0%Z.

(** [str.isupper] and [str.upper] on the letters A to Z and a to z. *)
Definition toy_isupper (c : char) : bool := ((65 <=? c) && (c <=? 90))%N.

Definition toy_upper (s : str) : str :=
  (λ c, if ((97 <=? c) && (c <=? 122))%N then (c - 32)%N else c) <$> s.

Definition toy_world (files : list (str * str)) : World :=
  mkWorld (list_to_map files) (λ _, 0) 0 [].

(** ** Vocabulary of the example generator *)

(** The lemmas [choose] draws from: the list already loaded for the
    bucket, or else the lines of its file. *)
Definition pool (self : Buckets) (bucket : Z) (files : gmap str str)
  : list str :=
  match lemmas self !! bucket with
  | Some l => l
  | None =>
      match files !! bucket_file (name self) bucket with
      | Some content => stripped_lines content
      | None => []
      end
  end.

(** A noun for which the guarded lookup of [generate] finds no plural. *)
Definition no_plural (b : Bin) (noun : str) : Prop :=
  match (bin_lookup b noun).2 with
  | e :: _ => bin_lookup_variants b noun (ofl e) [lit "NF"; lit "FT"] = []
  | [] => True
  end.

(** The tags of the strong nominative of an adjective. *)
Definition strong_tags (upper : str → str) (gender number : str)
  : list str :=
  [upper gender; lit "FSB"; lit "NF"; number].

(** The unguarded lookups of one turn of [generate] all find a form. *)
Definition forms_exist (b : Bin) (upper : str → str)
    (adj_lemma noun : str) : Prop :=
  ∃ e es,
    (bin_lookup b noun).2 = e :: es
    ∧ bin_lookup_variants b adj_lemma (lit "lo")
        (strong_tags upper (ofl e) (lit "ET")) ≠ []
    ∧ bin_lookup_variants b adj_lemma (lit "lo")
        (strong_tags upper (ofl e) (lit "FT")) ≠ [].

(** The file that [generate] writes for a difficulty. *)
Definition output_file (difficulty : str) : str :=
  lit "icelandic-inflection-" ++ difficulty ++ lit ".jsonl".

(** [json.dumps(value, ensure_ascii=False)] on strings, lists and dicts. *)
Definition hex_digit (n : N) : N :=
  if (n <? 10)%N then (48 + n)%N else (87 + n)%N.

Definition json_escape (c : char) : str :=
  if (c =? 34)%N then [92; 34]%N
  else if (c =? 92)%N then [92; 92]%N
  else if (c =? 10)%N then [92; 110]%N
  else if (c =? 13)%N then [92; 114]%N
  else if (c =? 9)%N then [92; 116]%N
  else if (c =? 8)%N then [92; 98]%N
  else if (c =? 12)%N then [92; 102]%N
  else if (c <? 32)%N
       then [92; 117; 48; 48; hex_digit (c / 16); hex_digit (c mod 16)]%N
  else [c].

Definition json_string (s : str) : str :=
  [34%N] ++ concat (json_escape <$> s) ++ [34%N].

Fixpoint join (sep : str) (parts : list str) : str :=
  match parts with
  | [] => []
  | [p] => p
  | p :: ps => p ++ sep ++ join sep ps
  end.

Fixpoint json_dumps (j : json) : str :=
  match j with
  | JStr s => json_string s
  | JList items => lit "[" ++ join (lit ", ") (map json_dumps items) ++ lit "]"
  | JDict items =>
      lit "{"
      ++ join (lit ", ")
           (map (λ kv, json_string (fst kv) ++ lit ": " ++ json_dumps (snd kv))
              items)
      ++ lit "}"
  end.

(** A stand-in for the noun-phrase engine: the phrase, unchanged. *)
Definition toy_NounPhrase (text number case : str) : str := text.

(** ** Vocabulary of the further properties *)

(** The store after a sequence of calls of [add]. *)
Definition added (name0 : list N) (items : list (list N * Z)) : Buckets :=
  foldl (λ self item, add self item.1 item.2) (Buckets_new name0) items.

(** The candidate of a line of [nouns.csv], when the line yields one. *)
Definition noun_candidate (isupper : N → bool) (line : list N)
  : option (list N * list N) :=
  match noun_generator_line isupper line with
  | Ret (Some item) => Some item
  | _ => None
  end.

(** The candidate of a line of [adjectives.csv] that the two exclusions
    let through. *)
Definition adjective_candidate (line : list N) : option (list N * list N) :=
  match adjective_generator_line line with
  | Some lemma => if excluded_adjective lemma then None else Some (lemma, lit "lo")
  | None => None
  end.

(** A second small dictionary, with a homograph: "bor" has two meanings. *)
Definition homograph_bin : Bin :=
  mkBin
    (λ w, (w, if decide (w = lit "bor")
              then [mkEntry (lit "bor") (lit "kk") (lit "bor");
                    mkEntry (lit "bor") (lit "hk") (lit "bor")]
              else []))
    (λ w, (w, if decide (w = lit "bor")
              then [mkEntry (lit "bor") (lit "kk") (lit "bor");
                    mkEntry (lit "bor") (lit "hk") (lit "bor")]
              else []))
    (λ _ _ _, []).

(** The line that a turn of [generate] writes for an adjective and a noun,
    when all four lookups find a form. *)
Definition example_line (b : Bin) (upper : list N → list N)
    (NounPhrase : str → str → str → str) (jdump : json → list N)
    (adj_lemma noun : list N) : option (list N) :=
  match (bin_lookup b noun).2 with
  | [] => None
  | e :: _ =>
      match bin_lookup_variants b adj_lemma (lit "lo")
              (strong_tags upper (ofl e) (lit "ET")),
            bin_lookup_variants b adj_lemma (lit "lo")
              (strong_tags upper (ofl e) (lit "FT")),
            bin_lookup_variants b noun (ofl e) [lit "NF"; lit "FT"] with
      | a :: _, a' :: _, n :: _ =>
          Some (jdump (example NounPhrase jdump (bmynd a) noun (bmynd a')
                         (bmynd n)))
      | _, _, _ => None
      end
  end.

(** The lines of an output file of [generate]: each is the record of an
    adjective and a noun that the bucket files offer for the bucket. *)
Definition records_of (b : Bin) (upper : str → str)
    (NounPhrase : str → str → str → str) (jdump : json → str)
    (files : gmap str str) (bucket : Z) (lines : list str) : Prop :=
  Forall (λ line, ∃ adj_lemma noun,
            adj_lemma ∈ pool (Buckets_new (lit "adj")) bucket files
            ∧ noun ∈ pool (Buckets_new (lit "nouns")) bucket files
            ∧ example_line b upper NounPhrase jdump adj_lemma noun
              = Some line) lines.

(** * Properties *)

(** ** The frequency bucketer *)

Section BucketFacts.
Local Open Scope Z_scope.

Lemma log10_iter_bounds fuel : ∀ n,
  1 ≤ n → Z.log2 n < Z.of_nat fuel →
  0 ≤ log10_iter fuel n ∧
  10 ^ log10_iter fuel n ≤ n < 10 ^ (log10_iter fuel n + 1).
Proof.
  induction fuel as [|fuel IH]; intros n Hn Hfuel.
  - pose proof (Z.log2_nonneg n). lia.
  - cbn [log10_iter]. destruct (Z.ltb_spec n 10) as [Hlt|Hge].
    + change (10 ^ 0) with 1. change (10 ^ (0 + 1)) with 10. lia.
    + assert (Hq : 1 ≤ n / 10) by (apply Z.div_le_lower_bound; lia).
      assert (Hlog : Z.log2 (n / 10) < Z.log2 n).
      { assert (n / 10 ≤ n / 2) by (apply Z.div_le_compat_l; lia).
        assert (Z.log2 (n / 2) = Z.log2 n - 1).
        { change (n / 2) with (n / 2 ^ 1).
          rewrite <- (Z.shiftr_div_pow2 n 1) by lia.
          rewrite Z.log2_shiftr by lia.
          pose proof (Z.log2_le_mono 2 n). change (Z.log2 2) with 1 in *.
          lia. }
        pose proof (Z.log2_le_mono (n / 10) (n / 2)). lia. }
      destruct (IH (n / 10)) as (Hk & Hlo & Hhi); [lia | lia |].
      set (k := log10_iter fuel (n / 10)) in *.
      split; [lia|].
      replace (1 + k + 1) with (Z.succ (k + 1)) by lia.
      replace (1 + k) with (Z.succ k) by lia.
      rewrite !Z.pow_succ_r by lia.
      pose proof (Z.mul_div_le n 10). pose proof (Z.mod_pos_bound n 10).
      pose proof (Z.div_mod n 10). lia.
Qed.

(** [int_log10] is the floor of the decimal logarithm. *)
Lemma int_log10_bounds n :
  1 ≤ n → 0 ≤ int_log10 n ∧ 10 ^ int_log10 n ≤ n < 10 ^ (int_log10 n + 1).
Proof.
  intros Hn. apply log10_iter_bounds; [done|].
  pose proof (Z.log2_nonneg n). lia.
Qed.

Lemma int_log10_unique n k :
  0 ≤ k → 10 ^ k ≤ n < 10 ^ (k + 1) → int_log10 n = k.
Proof.
  intros Hk [Hlo Hhi].
  assert (Hn : 1 ≤ n) by (pose proof (Z.pow_pos_nonneg 10 k); lia).
  destruct (int_log10_bounds n Hn) as (Hj & Hlo' & Hhi').
  set (j := int_log10 n) in *.
  destruct (Z.lt_trichotomy j k) as [Hlt|[->|Hgt]]; [|done|].
  - pose proof (Z.pow_le_mono_r 10 (j + 1) k). lia.
  - pose proof (Z.pow_le_mono_r 10 (k + 1) j). lia.
Qed.

Lemma int_log10_mono m n : 1 ≤ m → m ≤ n → int_log10 m ≤ int_log10 n.
Proof.
  intros Hm Hmn.
  destruct (int_log10_bounds m Hm) as (Hj & Hlo & _).
  destruct (int_log10_bounds n) as (Hk & _ & Hhi); [lia|].
  destruct (Z.le_gt_cases (int_log10 m) (int_log10 n)) as [|Hgt]; [done|].
  pose proof (Z.pow_le_mono_r 10 (int_log10 n + 1) (int_log10 m)). lia.
Qed.

Lemma bucket_range f : 0 ≤ bucket f ≤ MAX_BUCKETS - 1.
Proof.
  unfold bucket, MAX_BUCKETS. destruct (Z.leb_spec f 1); [lia|].
  destruct (int_log10_bounds f); lia.
Qed.

Lemma bucket_mono f g : f ≤ g → bucket f ≤ bucket g.
Proof.
  intros Hfg. unfold bucket.
  destruct (Z.leb_spec f 1), (Z.leb_spec g 1); try lia.
  - pose proof (bucket_range g) as Hr. unfold bucket in Hr.
    destruct (Z.leb_spec g 1); lia.
  - pose proof (int_log10_mono f g). lia.
Qed.

(** C1: [bucket f] is 0 for [f <= 1] and otherwise the smaller of
    [MAX_BUCKETS - 1] and the floor [k] of the decimal logarithm of [f]
    (the [k] with [10^k <= f < 10^(k+1)]), with [MAX_BUCKETS = 3]; it is
    monotonic non-decreasing, and takes the values 0, 0, 1, 1, 2, 2 at
    0, 1, 10, 99, 100 and 100000. *)
Theorem bucket_spec :
  MAX_BUCKETS = 3 ∧
  (∀ f, f ≤ 1 → bucket f = 0) ∧
  (∀ f k, 1 < f → 0 ≤ k → 10 ^ k ≤ f < 10 ^ (k + 1) →
          bucket f = Z.min (MAX_BUCKETS - 1) k) ∧
  (∀ f g, 0 ≤ f → f ≤ g → bucket f ≤ bucket g) ∧
  bucket 0 = 0 ∧ bucket 1 = 0 ∧ bucket 10 = 1 ∧ bucket 99 = 1 ∧
  bucket 100 = 2 ∧ bucket 100000 = 2.
Proof.
  split; [done|]. split; [|split; [|split]].
  - intros f Hf. unfold bucket. destruct (Z.leb_spec f 1); [done|lia].
  - intros f k Hf Hk Hb. unfold bucket.
    destruct (Z.leb_spec f 1); [lia|].
    by rewrite (int_log10_unique f k).
  - intros f g _. apply bucket_mono.
  - by vm_compute.
Qed.

Lemma bucket_spec_witness :
  bucket 7 = 0 ∧ bucket 4321 = Z.min (MAX_BUCKETS - 1) 3 ∧
  bucket 42 ≤ bucket 4321.
Proof.
  destruct bucket_spec as (_ & Hlow & Hlog & Hmono & _).
  split; [|split].
  - apply (Hlog 7 0); lia.
  - apply (Hlog 4321 3); lia.
  - apply (Hmono 42 4321); lia.
Defined.
End BucketFacts.

(** ** Strings and files *)

Section StringFacts.

Lemma lit_inj : Inj (=) (=) lit.
Proof.
  intros s1 s2 Heq. unfold lit in Heq.
  assert (Hinj : Inj (=) (=) N_of_ascii).
  { intros a1 a2 Ha.
    rewrite <- (ascii_N_embedding a1), <- (ascii_N_embedding a2).
    by rewrite Ha. }
  apply (list_fmap_eq_inj _ Hinj) in Heq.
  rewrite <- (String.string_of_list_ascii_of_string s1),
    <- (String.string_of_list_ascii_of_string s2). by rewrite Heq.
Qed.

(** Two buckets of one store never share a file. *)
Lemma bucket_file_inj name b1 b2 :
  bucket_file name b1 = bucket_file name b2 → b1 = b2.
Proof.
  unfold bucket_file, str_of_int. intros Heq.
  do 2 apply app_inv_head in Heq. apply app_inv_tail in Heq.
  apply lit_inj in Heq. by apply (inj pretty) in Heq.
Qed.

Lemma readlines_from_line l : ∀ cur rest,
  NL ∉ l → CR ∉ l →
  readlines_from cur (l ++ NL :: rest)
  = (rev cur ++ l ++ [NL]) :: readlines_from [] rest.
Proof.
  induction l as [|c l IH]; intros cur rest Hnl Hcr.
  - done.
  - apply not_elem_of_cons in Hnl as [Hc1 Hnl].
    apply not_elem_of_cons in Hcr as [Hc2 Hcr].
    cbn [app readlines_from].
    destruct (N.eqb_spec c NL) as [->|_]; [done|].
    destruct (N.eqb_spec c CR) as [->|_]; [done|].
    rewrite IH by done. cbn [rev]. by rewrite <- !app_assoc.
Qed.

Lemma readlines_file_of_lines ls :
  Forall (λ l, (NL ∉ l) ∧ (CR ∉ l)) ls →
  readlines (file_of_lines ls) = (λ l, l ++ [NL]) <$> ls.
Proof.
  unfold readlines, file_of_lines.
  induction 1 as [|l ls [Hnl Hcr] _ IH]; [done|].
  cbn [fmap list_fmap concat]. rewrite <- app_assoc. cbn [app].
  rewrite readlines_from_line by done. by rewrite IH.
Qed.

Lemma strip_line l : strip l = l → strip (l ++ [NL]) = l.
Proof.
  intros Hl. unfold strip, rstrip in *.
  by rewrite rev_unit.
Qed.

(** A file of storable lemmas reads back as the lemmas written. *)
Lemma stripped_lines_file_of_lines ls :
  Forall storable ls → stripped_lines (file_of_lines ls) = ls.
Proof.
  intros Hls. unfold stripped_lines.
  rewrite readlines_file_of_lines
    by (eapply Forall_impl; [done|]; intros l (_ & _ & ? & ?); done).
  induction Hls as [|l ls (Hne & Hstrip & _) _ IH]; [done|].
  cbn [fmap list_fmap]. rewrite strip_line by done.
  rewrite filter_cons_True by done. f_equal. apply IH.
Qed.

End StringFacts.

(** ** White space and lines *)

Section StripFacts.
Implicit Types s : list N.

Lemma lstrip_suffix s : ∃ p, s = p ++ lstrip s ∧ Forall (λ c, isspace c = true) p.
Proof.
  induction s as [|c s (p & Hs & Hp)]; [by exists []|].
  cbn [lstrip]. destruct (isspace c) eqn:Hc.
  - exists (c :: p). split; [by rewrite Hs at 1|by constructor].
  - by exists [].
Qed.

Lemma lstrip_head s c s' : lstrip s = c :: s' → isspace c = false.
Proof.
  induction s as [|d s IH]; [done|]. cbn [lstrip].
  destruct (isspace d) eqn:Hd; [done|]. by intros [= <- <-].
Qed.

Lemma lstrip_fixed s : (∀ c s', s = c :: s' → isspace c = false) → lstrip s = s.
Proof.
  destruct s as [|c s']; [done|]. intros Hc. cbn [lstrip].
  by rewrite (Hc c s').
Qed.

Lemma lstrip_app_nonspace s t :
  lstrip s ≠ [] → lstrip (s ++ t) = lstrip s ++ t.
Proof.
  induction s as [|c s IH]; [done|]. cbn [lstrip app].
  destruct (isspace c); [done|]. done.
Qed.

Lemma lstrip_all_space p t :
  Forall (λ c, isspace c = true) p → lstrip (p ++ t) = lstrip t.
Proof. induction 1 as [|c p Hc _ IH]; [done|]. cbn. by rewrite Hc. Qed.

(** The last character of [rstrip s] is not white space. *)
Lemma rstrip_last s c s' : rev (rstrip s) = c :: s' → isspace c = false.
Proof. unfold rstrip. rewrite rev_involutive. apply lstrip_head. Qed.

Lemma rstrip_fixed s :
  (∀ c s', rev s = c :: s' → isspace c = false) → rstrip s = s.
Proof.
  intros Hc. unfold rstrip. rewrite lstrip_fixed by done.
  apply rev_involutive.
Qed.

Lemma rstrip_prefix s : ∃ q, s = rstrip s ++ q ∧ Forall (λ c, isspace c = true) q.
Proof.
  destruct (lstrip_suffix (rev s)) as (p & Hs & Hp).
  exists (rev p). split.
  - unfold rstrip. rewrite <- rev_app_distr, <- Hs. by rewrite rev_involutive.
  - apply Forall_forall. intros c Hc.
    rewrite Forall_forall in Hp. apply Hp.
    apply list_elem_of_In. apply list_elem_of_In in Hc. by apply in_rev.
Qed.

(** [strip] leaves no white space at either end. *)
Lemma strip_ends s :
  (∀ c s', strip s = c :: s' → isspace c = false)
  ∧ (∀ c s', rev (strip s) = c :: s' → isspace c = false).
Proof.
  split; intros c s'; unfold strip.
  - apply lstrip_head.
  - destruct (lstrip_suffix (rstrip s)) as (p & Hs & Hp). intros Hrev.
    apply (rstrip_last s c (s' ++ rev p)).
    rewrite Hs at 1. by rewrite rev_app_distr, Hrev.
Qed.

Lemma strip_idemp s : strip (strip s) = strip s.
Proof.
  destruct (strip_ends s) as [Hhead Hlast].
  unfold strip at 1. rewrite rstrip_fixed by done. by apply lstrip_fixed.
Qed.

Lemma strip_subseteq s c : c ∈ strip s → c ∈ s.
Proof.
  unfold strip. intros Hc.
  destruct (lstrip_suffix (rstrip s)) as (p & Hs & _).
  destruct (rstrip_prefix s) as (q & Hs' & _).
  rewrite Hs', Hs. set_solver.
Qed.
End StripFacts.

Section ReadlinesFacts.

Lemma elem_of_rev {A} (l : list A) x : x ∈ rev l ↔ x ∈ l.
Proof. rewrite !list_elem_of_In. symmetry. apply in_rev. Qed.

Lemma line_of_terminated cur : NL ∉ cur → CR ∉ cur → line_of (rev (NL :: cur)).
Proof.
  intros Hnl Hcr. exists (rev cur). split; [by left|].
  split; by rewrite elem_of_rev.
Qed.

Lemma readlines_from_lines n : ∀ s cur,
  length s ≤ n → NL ∉ cur → CR ∉ cur →
  Forall line_of (readlines_from cur s).
Proof.
  induction n as [|n IH]; intros s cur Hlen Hnl Hcr.
  - destruct s; [|cbn in Hlen; lia]. cbn.
    destruct cur as [|c cur]; [done|]. apply Forall_singleton.
    exists (rev (c :: cur)). split; [by right|].
    split; by rewrite elem_of_rev.
  - destruct s as [|c s].
    { cbn. destruct cur as [|c cur]; [done|]. apply Forall_singleton.
      exists (rev (c :: cur)). split; [by right|].
      split; by rewrite elem_of_rev. }
    cbn in Hlen. cbn [readlines_from].
    destruct (N.eqb_spec c NL) as [->|Hc1].
    { constructor; [by apply line_of_terminated|].
      apply IH; [lia|apply not_elem_of_nil..]. }
    destruct (N.eqb_spec c CR) as [->|Hc2].
    { destruct s as [|c' s].
      - constructor; [by apply line_of_terminated|]. by cbn.
      - destruct (N.eqb_spec c' NL) as [->|_];
          (constructor; [by apply line_of_terminated|]);
          apply IH; cbn in *; try lia; apply not_elem_of_nil. }
    apply IH; [lia|..]; apply not_elem_of_cons; done.
Qed.

Lemma strip_line_of line c : line_of line → c ∈ strip line → c ≠ NL ∧ c ≠ CR.
Proof.
  intros (body & [->| ->] & Hnl & Hcr) Hc.
  - assert (Hstrip : strip (body ++ [NL]) = strip body).
    { unfold strip, rstrip. by rewrite rev_unit. }
    rewrite Hstrip in Hc. apply strip_subseteq in Hc.
    split; intros ->; done.
  - apply strip_subseteq in Hc. split; intros ->; done.
Qed.

(** Whatever a file holds, the lines kept from it are storable. *)
Lemma stripped_lines_storable content :
  Forall storable (stripped_lines content).
Proof.
  unfold stripped_lines. apply Forall_forall. intros l Hl.
  apply list_elem_of_filter in Hl as [Hne Hl].
  apply list_elem_of_fmap in Hl as (line & -> & Hline).
  pose proof (readlines_from_lines (length content) content []) as Hlines.
  rewrite Forall_forall in Hlines.
  specialize (Hlines (le_n _) (not_elem_of_nil _) (not_elem_of_nil _)
                line Hline).
  split; [done|]. split; [apply strip_idemp|].
  split; intros Hc; by destruct (strip_line_of _ _ Hlines Hc).
Qed.
End ReadlinesFacts.

(** ** Random sampling *)

Section SamplingFacts.
Context {A : Type}.
Implicit Types pool : list A.

Lemma sample_draws_run k : ∀ pool σ,
  k ≤ length pool →
  sample_draws pool k σ
  = (Ret (draws (rng σ) (drawn σ) pool k),
     mkWorld (fs σ) (rng σ) (drawn σ + k) (queries σ)).
Proof.
  induction k as [|k IH]; intros pool σ Hk.
  - cbn. rewrite Nat.add_0_r. by destruct σ.
  - cbn [sample_draws draws]. unfold mbind, M_bind, randbelow.
    set (j := rng σ (drawn σ) mod length pool).
    assert (Hj : j < length pool) by (apply Nat.mod_upper_bound; lia).
    destruct (lookup_lt_is_Some_2 pool j Hj) as [x Hx]. rewrite Hx.
    rewrite IH by (rewrite length_delete by eauto; lia).
    cbn. do 2 f_equal. lia.
Qed.

(** A sample is made of elements at distinct positions of the pool. *)
Lemma draws_spec rng k : ∀ pool drawn,
  k ≤ length pool →
  length (draws rng drawn pool k) = k ∧ draws rng drawn pool k ⊆+ pool.
Proof.
  induction k as [|k IH]; intros pool drawn Hk.
  - split; [done|]. apply submseteq_nil_l.
  - cbn [draws]. set (j := rng drawn mod length pool).
    assert (Hj : j < length pool) by (apply Nat.mod_upper_bound; lia).
    destruct (lookup_lt_is_Some_2 pool j Hj) as [x Hx]. rewrite Hx.
    destruct (IH (delete j pool) (S drawn)) as [Hlen Hsub].
    { rewrite length_delete by eauto. lia. }
    split; [cbn; by rewrite Hlen|].
    trans (x :: delete j pool); [by apply submseteq_skip|].
    apply Permutation_submseteq. symmetry. by apply delete_Permutation.
Qed.

(** The first draw decides the first element of the sample. *)
Lemma draws_first rng drawn pool k j x :
  rng drawn = j → pool !! j = Some x →
  x ∈ draws rng drawn pool (S k).
Proof.
  intros Hrng Hx. cbn [draws].
  rewrite Hrng, Nat.mod_small by (by eapply lookup_lt_Some).
  rewrite Hx. apply list_elem_of_here.
Qed.

Lemma random_sample_run pool (k : Z) σ :
  (0 ≤ k ≤ Z.of_nat (length pool))%Z →
  random_sample pool k σ
  = (Ret (draws (rng σ) (drawn σ) pool (Z.to_nat k)),
     mkWorld (fs σ) (rng σ) (drawn σ + Z.to_nat k) (queries σ)).
Proof.
  intros Hk. unfold random_sample.
  destruct (Z.ltb_spec k 0); [lia|].
  destruct (Z.ltb_spec (Z.of_nat (length pool)) k); [lia|].
  cbn [orb]. apply sample_draws_run. lia.
Qed.

Lemma random_sample_negative pool (k : Z) σ :
  (k < 0)%Z → random_sample pool k σ = (Raise ValueError, σ).
Proof.
  intros Hk. unfold random_sample.
  by destruct (Z.ltb_spec k 0); [|lia].
Qed.

Lemma random_choice_empty σ : random_choice (@nil A) σ = (Raise IndexError, σ).
Proof. done. Qed.

Lemma random_choice_run (seq : list A) σ :
  seq ≠ [] →
  ∃ x, x ∈ seq ∧
    random_choice seq σ
    = (Ret x, mkWorld (fs σ) (rng σ) (S (drawn σ)) (queries σ)).
Proof.
  destruct seq as [|y seq]; [done|]. intros _.
  unfold random_choice, mbind, M_bind, randbelow, mret, M_ret.
  set (j := _ mod _). exists (nth j (y :: seq) y). split; [|done].
  apply list_elem_of_In, nth_In, Nat.mod_upper_bound. done.
Qed.
End SamplingFacts.

(** ** The bucket store *)

Section DictFacts.
Implicit Types d : list (Z * gset (list N)).

Lemma dict_add_keys b lemma d :
  (dict_add b lemma d).*1 = if decide (b ∈ d.*1) then d.*1 else d.*1 ++ [b].
Proof.
  induction d as [|[k s] d IH]; [done|]. cbn [dict_add].
  destruct (decide (k = b)) as [->|Hne].
  - cbn. rewrite decide_True; [done|]. apply list_elem_of_here.
  - cbn [fmap list_fmap fst]. rewrite IH.
    destruct (decide (b ∈ d.*1)) as [Hin|Hnin].
    + rewrite decide_True; [done|]. by apply list_elem_of_further.
    + rewrite decide_False; [done|]. 
      intros [?|?]%elem_of_cons; [congruence|done].
Qed.

Lemma dict_add_wf b lemma d : dict_wf d → dict_wf (dict_add b lemma d).
Proof.
  unfold dict_wf. intros Hd. rewrite dict_add_keys.
  destruct (decide (b ∈ d.*1)); [done|].
  apply NoDup_app. split; [done|]. split; [|apply NoDup_singleton].
  intros x Hx ->%list_elem_of_singleton. done.
Qed.

Lemma dict_get_add b lemma d b' :
  dict_get b' (dict_add b lemma d)
  = if decide (b' = b) then dict_get b d ∪ {[ lemma ]} else dict_get b' d.
Proof.
  induction d as [|[k s] d IH].
  - cbn. destruct (decide (b = b')) as [->|?].
    + rewrite decide_True by done. by rewrite (left_id_L ∅ (∪)).
    + by rewrite decide_False by congruence.
  - cbn [dict_add dict_get].
    destruct (decide (k = b)) as [->|Hne]; cbn [dict_get].
    + destruct (decide (b = b')) as [->|?].
      * by rewrite !decide_True.
      * by rewrite decide_False by congruence.
    + destruct (decide (k = b')) as [->|?].
      * by rewrite decide_False by congruence.
      * apply IH.
Qed.

Lemma dict_get_elem d k s : dict_wf d → (k, s) ∈ d → dict_get k d = s.
Proof.
  unfold dict_wf. induction d as [|[k' s'] d IH]; intros Hd Hin.
  - by apply elem_of_nil in Hin.
  - cbn in Hd. apply NoDup_cons in Hd as [Hk' Hd]. cbn [dict_get].
    apply elem_of_cons in Hin as [[= <- <-]|Hin].
    + by rewrite decide_True.
    + rewrite decide_False; [by apply IH|].
      intros ->. apply Hk'. apply list_elem_of_fmap. by exists (k, s).
Qed.

Lemma dict_get_nonempty d k :
  dict_get k d ≠ ∅ → (k, dict_get k d) ∈ d.
Proof.
  induction d as [|[k' s'] d IH]; [done|]. cbn [dict_get].
  destruct (decide (k' = k)) as [->|?]; intros Hne.
  - apply list_elem_of_here.
  - apply list_elem_of_further. by apply IH.
Qed.
End DictFacts.

Section WriteFacts.
Implicit Types d : list (Z * gset (list N)).
Implicit Types σ : World.

(** The loop [for lemma in ...: out.write(f"{lemma}\n")]. *)
Lemma write_lines out ls : ∀ σ content,
  fs σ !! out = Some content →
  for_each ls (λ _ lemma, file_write out (lemma ++ [NL])) () σ
  = (Ret (), mkWorld (<[out := content ++ file_of_lines ls]> (fs σ))
               (rng σ) (drawn σ) (queries σ)).
Proof.
  induction ls as [|l ls IH]; intros σ content Hout.
  - cbn. rewrite app_nil_r, insert_id by done. by destruct σ.
  - cbn [for_each]. unfold mbind, M_bind, file_write at 1.
    rewrite (IH _ (content ++ l ++ [NL])); cbn.
    + rewrite (alter_alt_Some _ _ _ _ Hout), insert_insert_eq.
      unfold file_of_lines. cbn. by rewrite <- !app_assoc.
    + rewrite (alter_alt_Some _ _ _ _ Hout). apply lookup_insert_eq.
Qed.

Lemma write_bucket_run (name : list N) (limit bucket : Z) (lemmas : gset (list N)) σ :
  (0 ≤ limit)%Z →
  write_bucket name limit () (bucket, lemmas) σ
  = (Ret (),
     if decide (size lemmas = 0) then σ
     else mkWorld
            (<[bucket_file name bucket :=
                 file_of_lines (draws (rng σ) (drawn σ) (elements lemmas)
                                  (samples limit (size lemmas)))]> (fs σ))
            (rng σ) (drawn σ + samples limit (size lemmas)) (queries σ)).
Proof.
  intros Hlimit. unfold write_bucket.
  destruct (Z.ltb_spec (Z.of_nat (size lemmas)) 1) as [Hlt|Hge].
  { rewrite decide_True by lia. done. }
  rewrite decide_False by lia.
  unfold mbind, M_bind, open_w at 1.
  rewrite random_sample_run by (unfold size, set_size; cbn; lia). cbn [fs rng drawn queries].
  rewrite (write_lines _ _ _ []) by apply lookup_insert_eq.
  cbn [fs rng drawn queries app]. rewrite insert_insert_eq.
  unfold samples, size, set_size. cbn. done.
Qed.

Lemma write_run (name : list N) (limit : Z) d : ∀ σ,
  (0 ≤ limit)%Z → dict_wf d →
  ∃ σ',
    for_each d (write_bucket name limit) () σ = (Ret (), σ')
    ∧ rng σ' = rng σ ∧ queries σ' = queries σ ∧ drawn σ ≤ drawn σ'
    ∧ (∀ f, (∀ k s, (k, s) ∈ d → size s ≠ 0 → f ≠ bucket_file name k) →
            fs σ' !! f = fs σ !! f)
    ∧ (∀ k s, (k, s) ∈ d → size s ≠ 0 →
         ∃ m, drawn σ ≤ m ∧
           fs σ' !! bucket_file name k
           = Some (file_of_lines (draws (rng σ) m (elements s)
                                    (samples limit (size s))))).
Proof.
  intros σ Hlimit. revert σ.
  induction d as [|[k s] d IH]; intros σ Hwf.
  - exists σ. repeat split; try done.
    intros k s Hin. by apply elem_of_nil in Hin.
  - pose proof Hwf as Hwf'. unfold dict_wf in Hwf. cbn in Hwf.
    apply NoDup_cons in Hwf as [Hk Hd].
    cbn [for_each]. unfold mbind, M_bind.
    rewrite write_bucket_run by done.
    set (σ1 := if decide (size s = 0) then σ else _).
    assert (Hσ1 : rng σ1 = rng σ ∧ queries σ1 = queries σ
                  ∧ drawn σ ≤ drawn σ1).
    { unfold σ1. destruct (decide (size s = 0)); cbn; repeat split; lia. }
    destruct Hσ1 as (Hrng1 & Hq1 & Hd1).
    destruct (IH σ1 Hd) as (σ' & Hrun & Hrng & Hq & Hdr & Hother & Hfiles).
    exists σ'. split; [done|]. split; [congruence|]. split; [congruence|].
    split; [lia|]. split.
    + intros f Hf. rewrite Hother.
      * unfold σ1. destruct (decide (size s = 0)) as [|Hne]; [done|]. cbn.
        apply lookup_insert_ne. intros Heq.
        by apply (Hf k s); [apply list_elem_of_here|..].
      * intros k' s' Hin. apply Hf. by apply list_elem_of_further.
    + intros k' s' [[= -> ->]|Hin]%elem_of_cons Hne.
      * exists (drawn σ). split; [done|]. rewrite Hother.
        -- unfold σ1. rewrite decide_False by done. cbn.
           apply lookup_insert_eq.
        -- intros k' s' Hin _ Heq%bucket_file_inj. subst k'.
           apply Hk. apply list_elem_of_fmap. by exists (k, s').
      * destruct (Hfiles k' s' Hin Hne) as (m & Hm & Hfile).
        exists m. split; [lia|]. by rewrite Hfile, Hrng1.
Qed.

(** What [write] leaves in the file of each bucket. *)
Lemma write_files (self : Buckets) (limit : Z) σ :
  (0 ≤ limit)%Z → dict_wf (buckets self) →
  ∃ σ',
    write self limit σ = (Ret (), σ')
    ∧ rng σ' = rng σ ∧ queries σ' = queries σ
    ∧ (∀ f, (∀ bucket, f ≠ bucket_file (name self) bucket) →
            fs σ' !! f = fs σ !! f)
    ∧ ∀ bucket,
        let lemmas := dict_get bucket (buckets self) in
        let out := bucket_file (name self) bucket in
        if decide (size lemmas = 0) then fs σ' !! out = fs σ !! out
        else ∃ m, drawn σ ≤ m ∧
          fs σ' !! out
          = Some (file_of_lines (draws (rng σ) m (elements lemmas)
                                   (samples limit (size lemmas)))).
Proof.
  intros Hlimit Hwf. unfold write.
  destruct (write_run (name self) limit (buckets self) σ Hlimit Hwf)
    as (σ' & Hrun & Hrng & Hq & _ & Hother & Hfiles).
  exists σ'. split; [done|]. split; [done|]. split; [done|]. split.
  { intros f Hf. apply Hother. intros k s _ _. apply Hf. }
  intros bucket. set (lemmas := dict_get bucket (buckets self)).
  destruct (decide (size lemmas = 0)) as [Hempty|Hne].
  - apply Hother. intros k s Hin Hs Heq%bucket_file_inj. subst k.
    apply Hs. by rewrite <- (dict_get_elem _ _ _ Hwf Hin).
  - apply Hfiles; [|done]. apply dict_get_nonempty.
    intros Heq. apply Hne. fold lemmas in Heq. by rewrite Heq.
Qed.
End WriteFacts.

Section BucketStoreFacts.
Implicit Types σ : World.

Lemma submseteq_NoDup_l {A} (l k : list A) : l ⊆+ k → NoDup k → NoDup l.
Proof.
  intros [k' Hk]%submseteq_Permutation Hnd. rewrite Hk in Hnd.
  by apply NoDup_app in Hnd as [? _].
Qed.

(** What [write] leaves in the file of each bucket, as a sample of its
    lemmas. *)
Lemma write_sampled (self : Buckets) (limit : Z) σ :
  (0 ≤ limit)%Z → dict_wf (buckets self) →
  ∃ σ',
    write self limit σ = (Ret (), σ') ∧
    ∀ bucket : Z,
      let lemmas := dict_get bucket (buckets self) in
      let out := bucket_file (name self) bucket in
      if decide (size lemmas = 0) then fs σ' !! out = fs σ !! out
      else ∃ written m,
        fs σ' !! out = Some (file_of_lines written)
        ∧ written = draws (rng σ) m (elements lemmas)
                      (Z.to_nat (Z.min limit (Z.of_nat (size lemmas))))
        ∧ NoDup written ∧ (∀ l, l ∈ written → l ∈ lemmas)
        ∧ (Z.of_nat (length written) ≤ limit)%Z
        ∧ ((limit < Z.of_nat (size lemmas))%Z →
           Z.of_nat (length written) = limit)
        ∧ ((Z.of_nat (size lemmas) ≤ limit)%Z →
           written ≡ₚ elements lemmas).
Proof.
  intros Hlimit Hwf.
  destruct (write_files self limit σ Hlimit Hwf)
    as (σ' & Hrun & _ & _ & _ & Hfiles).
  exists σ'. split; [done|]. intros bucket. specialize (Hfiles bucket).
  cbv zeta in *. set (lemmas := dict_get bucket (buckets self)) in *.
  destruct (decide (size lemmas = 0)) as [|Hne]; [done|].
  destruct Hfiles as (m & _ & Hfile).
  eexists _, m. split; [done|]. split; [done|].
  destruct (draws_spec (rng σ) (samples limit (size lemmas))
              (elements lemmas) m) as [Hlen Hsub].
  { unfold samples, size, set_size. cbn. lia. }
  fold (samples limit (size lemmas)).
  split; [|split; [|split; [|split]]].
  - eapply submseteq_NoDup_l; [done|]. apply NoDup_elements.
  - intros l Hl. apply elem_of_elements. by eapply elem_of_submseteq.
  - rewrite Hlen. unfold samples. lia.
  - intros Hlt. rewrite Hlen. unfold samples. lia.
  - intros Hle. apply submseteq_length_Permutation; [done|].
    rewrite Hlen. unfold samples, size, set_size in *. cbn in *. lia.
Qed.

(** C6: [write] always completes for a limit that is not negative; the
    file of a bucket holds what [random.sample] returned for its lemmas,
    one per line: at most [limit] lines, exactly [limit] distinct lemmas
    of the bucket when it has more, all of its lemmas when it has at most
    [limit]; and a bucket without lemmas leaves the directory as it
    was. *)
Theorem write_sample_limit (self : Buckets) (limit : Z) σ :
  (0 ≤ limit)%Z → dict_wf (buckets self) →
  ∃ σ',
    write self limit σ = (Ret (), σ') ∧
    ∀ bucket : Z,
      let lemmas := dict_get bucket (buckets self) in
      let out := bucket_file (name self) bucket in
      if decide (size lemmas = 0) then fs σ' !! out = fs σ !! out
      else ∃ written m,
        fs σ' !! out = Some (file_of_lines written)
        ∧ written = draws (rng σ) m (elements lemmas)
                      (Z.to_nat (Z.min limit (Z.of_nat (size lemmas))))
        ∧ NoDup written ∧ (∀ l, l ∈ written → l ∈ lemmas)
        ∧ (Z.of_nat (length written) ≤ limit)%Z
        ∧ ((limit < Z.of_nat (size lemmas))%Z →
           Z.of_nat (length written) = limit)
        ∧ ((Z.of_nat (size lemmas) ≤ limit)%Z →
           written ≡ₚ elements lemmas).
Proof. apply write_sampled. Qed.

Lemma write_sample_limit_witness :
  let self := add (Buckets_new (lit "adj")) (lit "gulur") 7 in
  let σ := mkWorld ∅ (λ _, 0) 0 [] in
  (0 ≤ 500)%Z ∧ dict_wf (buckets self) ∧
  ∃ σ', write self 500 σ = (Ret (), σ')
        ∧ fs σ' !! bucket_file (lit "adj") 0 = Some (lit "gulur" ++ [NL]).
Proof.
  intros self σ.
  assert (Hlimit : (0 ≤ 500)%Z) by lia.
  assert (Hwf : dict_wf (buckets self)) by (vm_compute; apply NoDup_singleton).
  split; [done|]. split; [done|].
  destruct (write_sample_limit self 500 σ Hlimit Hwf) as (σ' & Hrun & Hfiles).
  exists σ'. split; [done|].
  specialize (Hfiles 0%Z). cbv zeta in Hfiles.
  rewrite decide_False in Hfiles by (by vm_compute).
  destruct Hfiles as (written & m & Hfile & -> & _).
  etrans; [exact Hfile|]. by vm_compute.
Defined.

Lemma read_missing (self : Buckets) (bucket : Z) σ :
  fs σ !! bucket_file (name self) bucket = None →
  default [] (lemmas self !! bucket) = [] →
  read self bucket σ
  = (Ret (mkBuckets (name self) (buckets self)
            (<[bucket := []]> (lemmas self))), σ).
Proof.
  intros Hfile Hbu. unfold read, try_except, mbind, M_bind, open_r.
  cbn [name buckets lemmas]. rewrite Hfile, Hbu.
  by rewrite !decide_True by done.
Qed.

(** The [assert] of [read]: a list that was loaded from a file that has
    since gone. *)
Lemma read_missing_loaded (self : Buckets) (bucket : Z) σ :
  fs σ !! bucket_file (name self) bucket = None →
  default [] (lemmas self !! bucket) ≠ [] →
  read self bucket σ = (Raise AssertionError, σ).
Proof.
  intros Hfile Hbu. unfold read, try_except, mbind, M_bind, open_r.
  cbn [name buckets lemmas]. rewrite Hfile.
  rewrite decide_True by done. rewrite decide_False; [done|].
  by destruct (default [] _).
Qed.

Lemma read_present (self : Buckets) (bucket : Z) σ content :
  fs σ !! bucket_file (name self) bucket = Some content →
  read self bucket σ
  = (Ret (mkBuckets (name self) (buckets self)
            (<[bucket := default [] (lemmas self !! bucket)
                          ++ stripped_lines content]> (lemmas self))), σ).
Proof.
  intros Hfile. unfold read, try_except, mbind, M_bind, open_r.
  cbn [name buckets lemmas]. rewrite Hfile.
  unfold mret, M_ret. by rewrite insert_insert_eq.
Qed.

(** C7: loading a bucket whose file does not exist completes and leaves
    the bucket with an empty list; choosing from a bucket whose list is
    empty once loaded (its file was never created, or holds only blank
    lines, or the list was loaded empty before) raises [IndexError]. *)
Theorem missing_file_empty_choice (self : Buckets) (bucket : Z) σ :
  let out := bucket_file (name self) bucket in
  (fs σ !! out = None → default [] (lemmas self !! bucket) = [] →
   read self bucket σ
   = (Ret (mkBuckets (name self) (buckets self)
             (<[bucket := []]> (lemmas self))), σ))
  ∧ (lemmas self !! bucket = None → fs σ !! out = None →
     choose self bucket σ = (Raise IndexError, σ))
  ∧ (∀ content, lemmas self !! bucket = None →
     fs σ !! out = Some content → stripped_lines content = [] →
     choose self bucket σ = (Raise IndexError, σ))
  ∧ (lemmas self !! bucket = Some [] →
     choose self bucket σ = (Raise IndexError, σ)).
Proof.
  intros out. split; [|split; [|split]].
  - by apply read_missing.
  - intros Hnone Hfile. unfold choose, mbind, M_bind.
    rewrite decide_False by (by apply not_elem_of_dom).
    rewrite read_missing by (by rewrite ?Hnone).
    cbn [lemmas]. by rewrite lookup_insert_eq.
  - intros content Hnone Hfile Hblank. unfold choose, mbind, M_bind.
    rewrite decide_False by (by apply not_elem_of_dom).
    rewrite (read_present _ _ _ content) by done. rewrite Hnone, Hblank.
    cbn [lemmas]. by rewrite lookup_insert_eq.
  - intros Hempty. unfold choose, mbind, M_bind.
    rewrite decide_True by (apply elem_of_dom; eauto).
    unfold mret, M_ret. by rewrite Hempty.
Qed.

Lemma missing_file_empty_choice_witness :
  let self := Buckets_new (lit "nouns") in
  let σ := mkWorld ∅ (λ _, 0) 0 [] in
  fs σ !! bucket_file (name self) 1 = None ∧
  lemmas self !! 1%Z = None ∧
  read self 1 σ = (Ret (mkBuckets (lit "nouns") [] {[ 1%Z := [] ]}), σ) ∧
  choose self 1 σ = (Raise IndexError, σ).
Proof.
  intros self σ.
  assert (Hfile : fs σ !! bucket_file (name self) 1 = None) by reflexivity.
  assert (Hnone : lemmas self !! 1%Z = None) by reflexivity.
  destruct (missing_file_empty_choice self 1 σ) as (Hread & Hchoose & _).
  split; [done|]. split; [done|]. split.
  - apply Hread; [done|]. by rewrite Hnone.
  - by apply Hchoose.
Defined.
(** C5, as the code has it: [read] strips each line and drops the blank
    ones, and [write] leaves the file of an empty bucket as it was. So for
    a bucket of storable lemmas (not empty, no white space at either end,
    no line break) whose file does not exist beforehand when the bucket is
    empty, writing the store and loading the bucket yields a list of
    lemmas of the bucket, and all of them when the bucket has at most
    [limit] lemmas. *)
Theorem write_read_roundtrip (self reader : Buckets) (limit bucket : Z) σ :
  let original := dict_get bucket (buckets self) in
  (0 ≤ limit)%Z → dict_wf (buckets self) →
  name reader = name self → default [] (lemmas reader !! bucket) = [] →
  (∀ l, l ∈ original → storable l) →
  (size original = 0 → fs σ !! bucket_file (name self) bucket = None) →
  ∃ σ' reader' loaded,
    write self limit σ = (Ret (), σ')
    ∧ read reader bucket σ' = (Ret reader', σ')
    ∧ lemmas reader' !! bucket = Some loaded
    ∧ NoDup loaded
    ∧ (∀ l, l ∈ loaded → l ∈ original)
    ∧ ((Z.of_nat (size original) ≤ limit)%Z → list_to_set loaded = original).
Proof.
  intros original Hlimit Hwf Hname Hfresh Hstorable Hstale.
  destruct (write_sampled self limit σ Hlimit Hwf) as (σ' & Hrun & Hfiles).
  specialize (Hfiles bucket). cbv zeta in Hfiles. fold original in Hfiles.
  exists σ'. destruct (decide (size original = 0)) as [Hempty|Hne].
  - rewrite Hstale in Hfiles by done. rewrite <- Hname in Hfiles.
    eexists _, []. split; [done|]. split; [by apply read_missing|].
    split; [apply lookup_insert_eq|]. split; [apply NoDup_nil_2|].
    split; [by intros l ?%elem_of_nil|].
    intros _. apply size_empty_inv in Hempty.
    by apply leibniz_equiv in Hempty.
  - destruct Hfiles as (written & m & Hfile & _ & Hnd & Hin & _ & _ & Hall).
    rewrite <- Hname in Hfile.
    eexists _, written. split; [done|].
    split; [by apply read_present|]. cbn [lemmas].
    rewrite lookup_insert_eq, Hfresh, stripped_lines_file_of_lines
      by (apply Forall_forall; intros l Hl; apply Hstorable, Hin, Hl).
    split; [done|]. split; [done|]. split; [done|].
    intros Hle. rewrite (list_to_set_perm_L _ _ (Hall Hle)).
    apply list_to_set_elements_L.
Qed.

Lemma write_read_roundtrip_witness :
  let self := add (Buckets_new (lit "nouns")) (lit "hestur") 250 in
  let σ := mkWorld ∅ (λ _, 0) 0 [] in
  storable (lit "hestur") ∧
  ∃ σ' reader' loaded,
    write self 1000 σ = (Ret (), σ')
    ∧ read (Buckets_new (lit "nouns")) 2 σ' = (Ret reader', σ')
    ∧ lemmas reader' !! 2%Z = Some loaded
    ∧ list_to_set loaded = dict_get 2 (buckets self).
Proof.
  intros self σ.
  assert (Hst : storable (lit "hestur")) by (by apply (bool_decide_unpack _)).
  split; [done|].
  destruct (write_read_roundtrip self (Buckets_new (lit "nouns")) 1000 2 σ)
    as (σ' & reader' & loaded & Hwrite & Hread & Hloaded & _ & _ & Hall).
  - lia.
  - vm_compute. apply NoDup_singleton.
  - reflexivity.
  - reflexivity.
  - intros l Hl. by assert (l = lit "hestur") as -> by set_solver.
  - by vm_compute.
  - exists σ', reader', loaded. repeat (split; [done|]).
    apply Hall. by vm_compute.
Defined.

(** C5, as stated, fails on a lemma with white space at an end, which
    comes back stripped, and on an empty bucket whose file is left over
    from an earlier run, which comes back with the old lemmas. *)
Lemma write_read_roundtrip_counterexample :
  (let self := add (Buckets_new (lit "nouns")) (lit " a") 0 in
   let σ := mkWorld ∅ (λ _, 0) 0 [] in
   let original := dict_get 0 (buckets self) in
   ∃ σ' reader',
     (Z.of_nat (size original) ≤ 1)%Z
     ∧ write self 1 σ = (Ret (), σ')
     ∧ read (Buckets_new (lit "nouns")) 0 σ' = (Ret reader', σ')
     ∧ lemmas reader' !! 0%Z = Some [lit "a"]
     ∧ (lit "a" ∉ original)
     ∧ list_to_set [lit "a"] ≠ original)
  ∧
  (let self := Buckets_new (lit "nouns") in
   let σ := mkWorld {[ bucket_file (lit "nouns") 0 := lit "hestur" ++ [NL] ]}
              (λ _, 0) 0 [] in
   let original := dict_get 0 (buckets self) in
   ∃ reader',
     (Z.of_nat (size original) ≤ 1)%Z
     ∧ write self 1 σ = (Ret (), σ)
     ∧ read (Buckets_new (lit "nouns")) 0 σ = (Ret reader', σ)
     ∧ lemmas reader' !! 0%Z = Some [lit "hestur"]
     ∧ lit "hestur" ∉ original).
Proof.
  split.
  - eexists _, _. split; [by vm_compute|]. split; [by vm_compute|].
    split; [by vm_compute|]. split; [by vm_compute|].
    assert (Hnotin : lit "a" ∉ dict_get 0 (buckets (add (Buckets_new (lit "nouns")) (lit " a") 0))).
    { by apply (bool_decide_unpack _). }
    split; [done|]. intros Heq. apply Hnotin. rewrite <- Heq. set_solver.
  - eexists. split; [by vm_compute|]. split; [by vm_compute|].
    split; [by vm_compute|]. split; [by vm_compute|].
    by apply (bool_decide_unpack _).
Qed.
End BucketStoreFacts.

(** ** The corpus processors *)

Section ProcessorFacts.
Variable b : Bin.
Variable ngrams : list N → Z.
Implicit Types σ : World.
Implicit Types lemma gender : list N.

Lemma with_queries_nil σ : with_queries σ [] = σ.
Proof. by destruct σ. Qed.

Lemma with_queries_app σ qs1 qs2 :
  with_queries (with_queries σ qs1) qs2 = with_queries σ (qs2 ++ qs1).
Proof. unfold with_queries. cbn. by rewrite app_assoc. Qed.

Lemma mbind_run {A B} (m : M A) (f : A → M B) σ :
  (m ≫= f) σ
  = match m σ with
    | (Ret a, σ') => f a σ'
    | (Raise e, σ') => (Raise e, σ')
    | (OutOfFuel, σ') => (OutOfFuel, σ')
    end.
Proof. done. Qed.

Lemma b_lookup_lemmas_run w σ :
  b_lookup_lemmas b w σ
  = (Ret (bin_lookup_lemmas b w), with_queries σ [QLookupLemmas w]).
Proof. done. Qed.

Lemma b_lookup_run w σ :
  b_lookup b w σ = (Ret (bin_lookup b w), with_queries σ [QLookup w]).
Proof. done. Qed.

Lemma b_lookup_variants_run w cat tags σ :
  b_lookup_variants b w cat tags σ
  = (Ret (bin_lookup_variants b w cat tags),
     with_queries σ [QLookupVariants w cat tags]).
Proof. done. Qed.

Lemma ngrams_freq_run w σ :
  ngrams_freq ngrams w σ = (Ret (ngrams w), with_queries σ [QFreq w]).
Proof. done. Qed.

Lemma any_lookup_run test w : ∀ σ,
  ∃ qs, any_lookup b test w σ
        = (Ret (existsb (λ wf, existsb test (bin_lookup b wf).2) w),
           with_queries σ qs).
Proof.
  induction w as [|wf w IH]; intros σ.
  - exists []. by rewrite with_queries_nil.
  - cbn [any_lookup existsb]. rewrite mbind_run, b_lookup_run.
    destruct (existsb test (bin_lookup b wf).2).
    + by exists [QLookup wf].
    + destruct (IH (with_queries σ [QLookup wf])) as [qs Hrun].
      exists (qs ++ [QLookup wf]). cbn [orb].
      rewrite <- with_queries_app. apply Hrun.
Qed.

Lemma sum_freq_run w : ∀ σ,
  ∃ qs, sum_freq ngrams w σ
        = (Ret (foldr (λ wf total, (ngrams wf + total)%Z) 0%Z w),
           with_queries σ qs).
Proof.
  induction w as [|wf w IH]; intros σ.
  - exists []. by rewrite with_queries_nil.
  - cbn [sum_freq foldr]. rewrite mbind_run, ngrams_freq_run, mbind_run.
    destruct (IH (with_queries σ [QFreq wf])) as [qs Hrun].
    exists (qs ++ [QFreq wf]). by rewrite Hrun, <- with_queries_app.
Qed.

Lemma existsb_negb_forallb {A} (p q : A → bool) l :
  (∀ x, p x = negb (q x)) → existsb p l = negb (forallb q l).
Proof.
  intros Hpq. induction l as [|x l IH]; [done|].
  cbn. rewrite IH, Hpq. by destruct (q x).
Qed.

(** The body of the loop of [process_nouns] computes the filter of the
    specification; it only adds to the log of database calls. *)
Lemma process_noun_run store lemma gender σ :
  ∃ qs, process_noun b ngrams store lemma gender σ
        = (Ret (filtered b ngrams store lemma gender), with_queries σ qs).
Proof.
  unfold process_noun, filtered, single_meaning.
  rewrite mbind_run, b_lookup_lemmas_run.
  set (σ1 := with_queries σ _).
  destruct (bin_lookup_lemmas b lemma).2 as [|f [|f' forms]] eqn:Hforms.
  - by exists [QLookupLemmas lemma].
  - cbn [length head fmap option_fmap option_map].
    rewrite (bool_decide_eq_false_2 (1 ≠ 1)) by (intros ?; done).
    cbn [orb].
    destruct (decide (ofl f = gender)) as [Hofl|Hofl].
    + rewrite bool_decide_eq_false_2 by (intros Hne; apply Hne; by rewrite Hofl).
      rewrite (bool_decide_eq_true_2 _ Hofl). cbn [andb].
      rewrite mbind_run, b_lookup_run. fold (word_forms b lemma gender).
      set (σ2 := with_queries σ1 _).
      rewrite mbind_run.
      destruct (any_lookup_run
        (λ e, bool_decide (ofl e ≠ gender) || bool_decide (ord e ≠ lemma))
        (elements (word_forms b lemma gender)) σ2) as [qs Hany].
      rewrite Hany.
      rewrite (existsb_negb_forallb _
        (λ wf, forallb (λ e, bool_decide (ofl e = gender)
                             && bool_decide (ord e = lemma))
                 (bin_lookup b wf).2)).
      2:{ intros wf. apply existsb_negb_forallb. intros e.
          by repeat case_bool_decide. }
      fold (unambiguous b lemma gender).
      destruct (unambiguous b lemma gender); cbn [negb].
      * rewrite mbind_run.
        destruct (sum_freq_run (elements (word_forms b lemma gender))
                    (with_queries σ2 qs)) as [qs' Hsum].
        rewrite Hsum. fold (frequency b ngrams lemma gender).
        eexists. unfold σ2, σ1. rewrite !with_queries_app. reflexivity.
      * eexists. unfold σ2, σ1. rewrite !with_queries_app. reflexivity.
    + rewrite (bool_decide_eq_true_2 (Some (ofl f) ≠ Some gender)) by congruence.
      rewrite (bool_decide_eq_false_2 _ Hofl). cbn [andb].
      by exists [QLookupLemmas lemma].
  - cbn [length]. rewrite bool_decide_eq_true_2 by done.
    by exists [QLookupLemmas lemma].
Qed.

Lemma process_adjective_excluded store lemma σ :
  excluded_adjective lemma = true →
  process_adjective b ngrams store lemma σ = (Ret store, σ).
Proof.
  unfold excluded_adjective, process_adjective.
  destruct (endswith lemma (lit "legur")); [done|].
  cbn [orb]. by intros ->.
Qed.

Lemma process_adjective_kept store lemma σ :
  excluded_adjective lemma = false →
  process_adjective b ngrams store lemma σ
  = process_noun b ngrams store lemma (lit "lo") σ.
Proof.
  unfold excluded_adjective, process_adjective.
  destruct (endswith lemma (lit "legur")); [done|].
  cbn [orb]. by intros ->.
Qed.

(** A loop whose body only adds to the log of database calls. *)
Lemma for_each_queries {A S} (body : S → A → M S) (step : S → A → S) l :
  (∀ s x σ, x ∈ l → ∃ qs, body s x σ = (Ret (step s x), with_queries σ qs)) →
  ∀ s σ, ∃ qs, for_each l body s σ = (Ret (foldl step s l), with_queries σ qs).
Proof.
  induction l as [|x l IH]; intros Hbody s σ.
  - exists []. by rewrite with_queries_nil.
  - cbn [for_each foldl]. rewrite mbind_run.
    destruct (Hbody s x σ) as [qs Hrun]; [apply list_elem_of_here|].
    rewrite Hrun.
    destruct (IH (λ s x σ Hx, Hbody s x σ (list_elem_of_further _ _ _ Hx))
                (step s x) (with_queries σ qs)) as [qs' Hrest].
    exists (qs' ++ qs). by rewrite Hrest, with_queries_app.
Qed.

Lemma foldl_invariant {A S} (P : S → Prop) (step : S → A → S) l s :
  P s → (∀ s x, x ∈ l → P s → P (step s x)) → P (foldl step s l).
Proof.
  revert s. induction l as [|x l IH]; intros s Hs Hstep; [done|].
  cbn. apply IH.
  - apply Hstep; [apply list_elem_of_here|done].
  - intros s' x' Hx'. apply Hstep. by apply list_elem_of_further.
Qed.

Lemma filtered_name store lemma category :
  name (filtered b ngrams store lemma category) = name store.
Proof. unfold filtered. by destruct (_ && _). Qed.

Lemma filtered_wf store lemma category :
  dict_wf (buckets store) →
  dict_wf (buckets (filtered b ngrams store lemma category)).
Proof.
  unfold filtered. destruct (_ && _); [|done]. apply dict_add_wf.
Qed.

(** The filter only ever adds the candidate it was given. *)
Lemma filtered_elem store lemma category bucket l :
  l ∈ dict_get bucket (buckets (filtered b ngrams store lemma category)) →
  l ∈ dict_get bucket (buckets store) ∨ l = lemma.
Proof.
  unfold filtered. destruct (_ && _); [|by left].
  cbn [add buckets]. rewrite dict_get_add.
  case_decide; [|by left]. subst. set_solver.
Qed.

Lemma filtered_keeps store lemma category bucket l :
  l ∈ dict_get bucket (buckets store) →
  l ∈ dict_get bucket (buckets (filtered b ngrams store lemma category)).
Proof.
  intros Hl. unfold filtered. destruct (_ && _); [|done].
  cbn [add buckets]. rewrite dict_get_add.
  case_decide; [|done]. subst. set_solver.
Qed.

Lemma filtered_adds store lemma category :
  single_meaning b lemma category = true →
  unambiguous b lemma category = true →
  lemma ∈ dict_get (bucket (frequency b ngrams lemma category))
            (buckets (filtered b ngrams store lemma category)).
Proof.
  intros Hone Hunamb. unfold filtered. rewrite Hone, Hunamb.
  cbn [andb add buckets]. rewrite dict_get_add, decide_True by done.
  set_solver.
Qed.

Lemma process_adjectives_run σ content :
  fs σ !! lit "adjectives.csv" = Some content →
  ∃ qs, process_adjectives b ngrams σ
        = write (foldl (adjective_step b ngrams) (Buckets_new (lit "adj"))
                   (readlines content))
            NUM_ADJECTIVE_SAMPLES (with_queries σ qs).
Proof.
  intros Hfile. unfold process_adjectives.
  rewrite mbind_run. unfold open_r. rewrite Hfile. rewrite mbind_run.
  destruct (for_each_queries
    (λ adj_buckets line,
       match adjective_generator_line line with
       | Some lemma => process_adjective b ngrams adj_buckets lemma
       | None => mret adj_buckets
       end)
    (adjective_step b ngrams) (readlines content)) with
    (s := Buckets_new (lit "adj")) (σ := σ) as [qs Hrun].
  - intros s line σ0 _. unfold adjective_step.
    destruct (adjective_generator_line line) as [lemma|].
    + destruct (excluded_adjective lemma) eqn:Hex.
      * exists []. rewrite process_adjective_excluded by done.
        by rewrite with_queries_nil.
      * rewrite process_adjective_kept by done. apply process_noun_run.
    + exists []. by rewrite with_queries_nil.
  - exists qs. by rewrite Hrun.
Qed.

Lemma process_nouns_run isupper σ content :
  fs σ !! lit "nouns.csv" = Some content →
  Forall (λ line, noun_generator_line isupper line ≠ Raise IndexError)
    (readlines content) →
  ∃ qs, process_nouns isupper b ngrams σ
        = write (foldl (noun_step isupper b ngrams) (Buckets_new (lit "nouns"))
                   (readlines content))
            NUM_NOUN_SAMPLES (with_queries σ qs).
Proof.
  intros Hfile Hlines. unfold process_nouns.
  rewrite mbind_run. unfold open_r. rewrite Hfile. rewrite mbind_run.
  destruct (for_each_queries
    (λ noun_buckets line,
       item ← resume (noun_generator_line isupper line);
       match item with
       | Some (lemma, gender) => process_noun b ngrams noun_buckets lemma gender
       | None => mret noun_buckets
       end)
    (noun_step isupper b ngrams) (readlines content)) with
    (s := Buckets_new (lit "nouns")) (σ := σ) as [qs Hrun].
  - intros s line σ0 Hline. rewrite mbind_run. unfold resume, noun_step.
    rewrite Forall_forall in Hlines. specialize (Hlines line Hline).
    destruct (noun_generator_line isupper line) as [[[lemma gender]|]|e|] eqn:Hgen.
    + apply process_noun_run.
    + exists []. by rewrite with_queries_nil.
    + exfalso. apply Hlines. f_equal.
      unfold noun_generator_line in Hgen.
      repeat (case_match; try done); by simplify_eq.
    + exfalso. unfold noun_generator_line in Hgen.
      repeat (case_match; try done).
  - exists qs. by rewrite Hrun.
Qed.

(** C8: an adjective lemma that ends in "legur" or is on the deny-list is
    skipped with the world, and so the log of database calls, unchanged;
    no such lemma is in any bucket of the store that [process_adjectives]
    builds, nor in any bucket file that it writes: every line of such a
    file is a lemma of the bucket, not excluded, followed by a line feed,
    and so is every lemma that [Buckets.read] keeps from the file. The
    file of a bucket that ends empty is left as it was before the run. *)
Theorem excluded_adjective_never_persisted :
  (∀ store lemma σ,
     endswith lemma (lit "legur") = true ∨ lemma ∈ AVOID_ADJECTIVES →
     process_adjective b ngrams store lemma σ = (Ret store, σ))
  ∧ (∀ σ content,
       fs σ !! lit "adjectives.csv" = Some content →
       let adj_buckets :=
         foldl (adjective_step b ngrams) (Buckets_new (lit "adj"))
           (readlines content) in
       ∃ σ',
         process_adjectives b ngrams σ = (Ret (), σ')
         ∧ (∀ bucket lemma,
              lemma ∈ dict_get bucket (buckets adj_buckets) →
              endswith lemma (lit "legur") = false
              ∧ lemma ∉ AVOID_ADJECTIVES)
         ∧ ∀ bucket : Z,
             let out := bucket_file (lit "adj") bucket in
             if decide (size (dict_get bucket (buckets adj_buckets)) = 0)
             then fs σ' !! out = fs σ !! out
             else ∃ text,
               fs σ' !! out = Some text
               ∧ (∀ line, line ∈ readlines text →
                    ∃ lemma,
                      line = lemma ++ [NL]
                      ∧ lemma ∈ dict_get bucket (buckets adj_buckets)
                      ∧ endswith lemma (lit "legur") = false
                      ∧ lemma ∉ AVOID_ADJECTIVES)
               ∧ (∀ lemma, lemma ∈ stripped_lines text →
                    lemma ∈ dict_get bucket (buckets adj_buckets)
                    ∧ endswith lemma (lit "legur") = false
                    ∧ lemma ∉ AVOID_ADJECTIVES)).
Proof.
  split.
  - intros store lemma σ Hex. apply process_adjective_excluded.
    unfold excluded_adjective. destruct Hex as [->|Hin]; [done|].
    rewrite (bool_decide_eq_true_2 _ Hin). apply orb_true_r.
  - intros σ content Hfile store.
    destruct (process_adjectives_run σ content Hfile) as [qs Hrun].
    fold store in Hrun.
    assert (Hinv : name store = lit "adj" ∧ dict_wf (buckets store)
                   ∧ ∀ bucket lemma,
                       lemma ∈ dict_get bucket (buckets store) →
                       excluded_adjective lemma = false ∧ storable lemma).
    { apply (foldl_invariant (λ s, name s = lit "adj" ∧ dict_wf (buckets s)
        ∧ ∀ bucket lemma, lemma ∈ dict_get bucket (buckets s) →
                          excluded_adjective lemma = false ∧ storable lemma)).
      - split; [done|]. split; [apply NoDup_nil_2|].
        intros bucket lemma Hin. by apply elem_of_empty in Hin.
      - intros s line Hline (Hname & Hwf & Hs). unfold adjective_step.
        destruct (adjective_generator_line line) as [lemma|] eqn:Hgen; [|done].
        destruct (excluded_adjective lemma) eqn:Hex; [done|].
        split; [by rewrite filtered_name|]. split; [by apply filtered_wf|].
        intros bucket l [Hl| ->]%filtered_elem; [by eapply Hs|].
        split; [done|].
        unfold adjective_generator_line in Hgen. cbv zeta in Hgen.
        case_decide as Hne; [|done]. injection Hgen as <-.
        pose proof (stripped_lines_storable content) as Hst.
        rewrite Forall_forall in Hst. apply Hst. unfold stripped_lines.
        apply list_elem_of_filter. split; [done|].
        apply list_elem_of_fmap. by exists line. }
    destruct Hinv as (Hname & Hwf & Hstore).
    assert (Hsplit : ∀ lemma, excluded_adjective lemma = false →
              endswith lemma (lit "legur") = false ∧ lemma ∉ AVOID_ADJECTIVES).
    { intros lemma [H1 H2]%orb_false_elim.
      split; [done|]. intros Hin. by rewrite (bool_decide_eq_true_2 _ Hin) in H2. }
    destruct (write_sampled store NUM_ADJECTIVE_SAMPLES
                (with_queries σ qs)) as (σ' & Hwrite & Hfiles);
      [done|done|].
    exists σ'. split; [by rewrite Hrun|].
    split; [intros bucket lemma Hin; by eapply Hsplit, Hstore|].
    intros bucket. specialize (Hfiles bucket). cbv zeta in Hfiles.
    rewrite Hname in Hfiles. cbv zeta.
    destruct (decide (size (dict_get bucket (buckets store)) = 0)); [done|].
    destruct Hfiles as (written & m & Hout & _ & _ & Hin & _).
    assert (Hwritten : Forall storable written).
    { apply Forall_forall. intros l Hl. by eapply Hstore, Hin. }
    exists (file_of_lines written). split; [done|]. split.
    + rewrite readlines_file_of_lines
        by (eapply Forall_impl; [done|]; intros l (_ & _ & ? & ?); done).
      intros line (lemma & -> & Hl)%list_elem_of_fmap.
      exists lemma. split; [done|]. split; [by apply Hin|].
      by eapply Hsplit, Hstore, Hin.
    + rewrite stripped_lines_file_of_lines by done.
      intros lemma Hl. split; [by apply Hin|].
      by eapply Hsplit, Hstore, Hin.
Qed.

(** C9: [process_nouns] never looks at [AVOID_NOUNS]. A lemma of the
    deny-list that its line yields (so it is not capitalized) and that has
    a single meaning and unambiguous word forms is in the bucket of its
    frequency when the loop ends; it is written to the file of that bucket
    whenever the bucket has at most 1000 lemmas, and for some outcome of
    the random generator in any case. *)
Theorem avoid_nouns_not_consulted isupper σ content line lemma gender :
  lemma ∈ AVOID_NOUNS →
  fs σ !! lit "nouns.csv" = Some content →
  Forall (λ l, noun_generator_line isupper l ≠ Raise IndexError)
    (readlines content) →
  line ∈ readlines content →
  noun_generator_line isupper line = Ret (Some (lemma, gender)) →
  single_meaning b lemma gender = true →
  unambiguous b lemma gender = true →
  let bucket := bucket (frequency b ngrams lemma gender) in
  let out := bucket_file (lit "nouns") bucket in
  let noun_buckets :=
    foldl (noun_step isupper b ngrams) (Buckets_new (lit "nouns"))
      (readlines content) in
    lemma ∈ dict_get bucket (buckets noun_buckets)
    ∧ (∃ σ', process_nouns isupper b ngrams σ = (Ret (), σ')
         ∧ ((Z.of_nat (size (dict_get bucket (buckets noun_buckets)))
             ≤ NUM_NOUN_SAMPLES)%Z →
            ∃ written, fs σ' !! out = Some (file_of_lines written)
                       ∧ lemma ∈ written))
    ∧ (∃ rng' σ' written,
         process_nouns isupper b ngrams
           (mkWorld (fs σ) rng' (drawn σ) (queries σ)) = (Ret (), σ')
         ∧ fs σ' !! out = Some (file_of_lines written)
         ∧ lemma ∈ written).
Proof.
  intros _ Hfile Hlines Hline Hgen Hone Hunamb bucket out store.
  assert (Hname : name store = lit "nouns" ∧ dict_wf (buckets store)).
  { apply (foldl_invariant (λ s, name s = lit "nouns" ∧ dict_wf (buckets s))).
    - split; [done|apply NoDup_nil_2].
    - intros s l _ [Hn Hwf]. unfold noun_step.
      repeat case_match; try done.
      split; [by rewrite filtered_name|by apply filtered_wf]. }
  destruct Hname as [Hname Hwf].
  assert (Hin : lemma ∈ dict_get bucket (buckets store)).
  { apply list_elem_of_split in Hline as (l1 & l2 & Hsplit).
    unfold store. rewrite Hsplit, foldl_app. cbn [foldl].
    apply (foldl_invariant (λ s, lemma ∈ dict_get bucket (buckets s))).
    - unfold noun_step at 1. rewrite Hgen. by apply filtered_adds.
    - intros s l _ Hs. unfold noun_step.
      repeat case_match; try done. by apply filtered_keeps. }
  assert (Hne : size (dict_get bucket (buckets store)) ≠ 0).
  { intros Hz%size_empty_inv. apply leibniz_equiv in Hz.
    rewrite Hz in Hin. by apply elem_of_empty in Hin. }
  split; [done|]. split.
  - destruct (process_nouns_run isupper σ content Hfile Hlines) as [qs Hrun].
    destruct (write_sampled store NUM_NOUN_SAMPLES (with_queries σ qs))
      as (σ' & Hwrite & Hfiles); [done|done|].
    exists σ'. split; [by rewrite Hrun|]. intros Hsize.
    specialize (Hfiles bucket). cbv zeta in Hfiles.
    rewrite decide_False, Hname in Hfiles by done.
    destruct Hfiles as (written & m & Hout & _ & _ & _ & _ & _ & Hall).
    exists written. split; [done|].
    rewrite (Hall Hsize). by apply elem_of_elements.
  - apply elem_of_elements, list_elem_of_lookup in Hin as [j Hj].
    set (σj := mkWorld (fs σ) (λ _, j) (drawn σ) (queries σ)).
    destruct (process_nouns_run isupper σj content Hfile Hlines) as [qs Hrun].
    destruct (write_sampled store NUM_NOUN_SAMPLES (with_queries σj qs))
      as (σ' & Hwrite & Hfiles); [done|done|].
    specialize (Hfiles bucket). cbv zeta in Hfiles.
    rewrite decide_False, Hname in Hfiles by done.
    destruct Hfiles as (written & m & Hout & Hdraws & _).
    exists (λ _, j), σ', written.
    split; [etrans; [exact Hrun|exact Hwrite]|].
    split; [done|]. rewrite Hdraws.
    destruct (Z.to_nat _) as [|k] eqn:Hk.
    { unfold NUM_NOUN_SAMPLES in Hk. lia. }
    by apply (draws_first _ _ _ _ j).
Qed.

(** C2, as the code has it: the adjective processor has no capitalization
    step. Every non-blank line of its file yields its stripped text,
    capitalized or not; unless one of the two exclusions applies, the
    lemma then goes through exactly what [process_nouns] does with a
    candidate of category "lo", and is added to the bucket of its
    frequency when it has a single meaning and unambiguous word forms. *)
Theorem adjective_filter_has_no_capital_check adj_buckets line σ :
  let lemma := strip line in
  lemma ≠ [] →
  endswith lemma (lit "legur") = false → lemma ∉ AVOID_ADJECTIVES →
  adjective_generator_line line = Some lemma
  ∧ process_adjective b ngrams adj_buckets lemma σ
    = process_noun b ngrams adj_buckets lemma (lit "lo") σ
  ∧ (single_meaning b lemma (lit "lo") = true →
     unambiguous b lemma (lit "lo") = true →
     ∃ qs, process_adjective b ngrams adj_buckets lemma σ
           = (Ret (add adj_buckets lemma (frequency b ngrams lemma (lit "lo"))),
              with_queries σ qs)).
Proof.
  intros lemma Hne Hlegur Havoid.
  assert (Hex : excluded_adjective lemma = false).
  { unfold excluded_adjective. rewrite Hlegur.
    by rewrite bool_decide_eq_false_2. }
  split; [|split].
  - unfold adjective_generator_line. by rewrite decide_True.
  - by apply process_adjective_kept.
  - intros Hone Hunamb. rewrite process_adjective_kept by done.
    destruct (process_noun_run adj_buckets lemma (lit "lo") σ) as [qs Hrun].
    exists qs. rewrite Hrun. unfold filtered. by rewrite Hone, Hunamb.
Qed.
End ProcessorFacts.

(** ** The processors on a small dictionary *)

Section ProcessorExamples.

Lemma adjective_filter_has_no_capital_check_witness :
  let σ := toy_world [] in
  let adj_buckets := Buckets_new (lit "adj") in
  strip (lit "gulur" ++ [NL]) = lit "gulur" ∧
  ∃ qs, process_adjective toy_bin toy_ngrams adj_buckets (lit "gulur") σ
        = (Ret (add adj_buckets (lit "gulur") 0), with_queries σ qs).
Proof.
  intros σ adj_buckets. split; [by vm_compute|].
  destruct (adjective_filter_has_no_capital_check toy_bin toy_ngrams
              adj_buckets (lit "gulur" ++ [NL]) σ) as (_ & _ & Hadd).
  - by vm_compute.
  - by vm_compute.
  - vm_compute. set_solver.
  - apply Hadd; by vm_compute.
Defined.

(** C2, as stated, fails: a capitalized adjective lemma is not rejected.
    "Danskur" starts with a capital letter, and [process_adjectives]
    stores it in bucket 0 and writes it to the file of that bucket. *)
Lemma capitalized_adjective_counterexample :
  let σ := toy_world [(lit "adjectives.csv", lit "Danskur" ++ [NL])] in
  toy_isupper 68%N = true
  ∧ head (lit "Danskur") = Some 68%N
  ∧ process_adjective toy_bin toy_ngrams (Buckets_new (lit "adj"))
      (lit "Danskur") (toy_world [])
    = (Ret (add (Buckets_new (lit "adj")) (lit "Danskur") 3),
       with_queries (toy_world [])
         [QFreq (lit "Danskur"); QLookup (lit "Danskur");
          QLookup (lit "Danskur"); QLookupLemmas (lit "Danskur")])
  ∧ lit "Danskur"
    ∈ dict_get 0 (buckets (add (Buckets_new (lit "adj")) (lit "Danskur") 3))
  ∧ fs (process_adjectives toy_bin toy_ngrams σ).2
      !! bucket_file (lit "adj") 0
    = Some (lit "Danskur" ++ [NL]).
Proof.
  intros σ. split; [done|]. split; [done|]. split; [by vm_compute|].
  split; [vm_compute; set_solver|]. by vm_compute.
Qed.

(** C4, where the code departs from it: a line whose lemma field is empty
    makes [noun_generator] raise [IndexError] at [lemma[0]]; the exception
    ends [process_nouns], which writes no bucket file. *)
Theorem empty_lemma_field_raises (isupper : N → bool) (b : Bin)
    (ngrams : list N → Z) :
  let line := lit ",kk" ++ [NL] in
  let σ := toy_world [(lit "nouns.csv", lit "hestur,kk" ++ [NL] ++ line)] in
  strip line = lit ",kk"
  ∧ split COMMA (strip line) = [[]; lit "kk"]
  ∧ noun_generator_line isupper line = Raise IndexError
  ∧ (process_nouns isupper b ngrams σ).1 = Raise IndexError
  ∧ fs (process_nouns isupper b ngrams σ).2 = fs σ.
Proof.
  intros line σ. split; [by vm_compute|]. split; [by vm_compute|].
  split; [by vm_compute|].
  unfold process_nouns. rewrite mbind_run.
  assert (Hopen : open_r (lit "nouns.csv") σ
                  = (Ret (lit "hestur,kk" ++ [NL] ++ line), σ))
    by (by vm_compute).
  rewrite Hopen, mbind_run.
  assert (Hlines : readlines (lit "hestur,kk" ++ [NL] ++ line)
                   = [lit "hestur,kk" ++ [NL]; line]) by (by vm_compute).
  rewrite Hlines. cbn [for_each]. rewrite !mbind_run.
  assert (Hfirst : noun_generator_line isupper (lit "hestur,kk" ++ [NL])
                   = if isupper 104%N then Ret None
                     else Ret (Some (lit "hestur", lit "kk")))
    by (by vm_compute).
  assert (Hsecond : noun_generator_line isupper line = Raise IndexError)
    by (by vm_compute).
  unfold resume. rewrite Hfirst, Hsecond.
  destruct (isupper 104%N).
  - done.
  - destruct (process_noun_run b ngrams (Buckets_new (lit "nouns"))
                (lit "hestur") (lit "kk") σ) as [qs Hrun].
    rewrite Hrun. rewrite mbind_run. done.
Qed.

Lemma excluded_adjective_never_persisted_witness :
  let σ := toy_world [(lit "adjectives.csv",
                       lit "gulur" ++ [NL] ++ lit "fallegur" ++ [NL]
                       ++ lit "gar" ++ [NL])] in
  endswith (lit "fallegur") (lit "legur") = true
  ∧ process_adjective toy_bin toy_ngrams (Buckets_new (lit "adj"))
      (lit "fallegur") σ = (Ret (Buckets_new (lit "adj")), σ)
  ∧ ∃ σ', process_adjectives toy_bin toy_ngrams σ = (Ret (), σ')
          ∧ fs σ' !! bucket_file (lit "adj") 0 = Some (lit "gulur" ++ [NL]).
Proof.
  intros σ.
  assert (Hlegur : endswith (lit "fallegur") (lit "legur") = true)
    by (by vm_compute).
  destruct (excluded_adjective_never_persisted toy_bin toy_ngrams)
    as [Hskip Hrun].
  split; [done|]. split; [apply Hskip; by left|].
  destruct (Hrun σ (lit "gulur" ++ [NL] ++ lit "fallegur" ++ [NL]
                    ++ lit "gar" ++ [NL])) as (σ' & Hp & _);
    [by vm_compute|].
  exists σ'. split; [done|].
  assert (σ' = (process_adjectives toy_bin toy_ngrams σ).2) as ->
    by (by rewrite Hp).
  by vm_compute.
Defined.

Lemma avoid_nouns_not_consulted_witness :
  let σ := toy_world [(lit "nouns.csv", lit "nam,hk" ++ [NL])] in
  lit "nam" ∈ AVOID_NOUNS ∧
  ∃ σ' written,
    process_nouns toy_isupper toy_bin toy_ngrams σ = (Ret (), σ')
    ∧ fs σ' !! bucket_file (lit "nouns") 1 = Some (file_of_lines written)
    ∧ lit "nam" ∈ written.
Proof.
  intros σ.
  assert (Hnam : lit "nam" ∈ AVOID_NOUNS).
  { unfold AVOID_NOUNS. set_solver. }
  split; [done|].
  assert (Hlines : readlines (lit "nam,hk" ++ [NL]) = [lit "nam,hk" ++ [NL]])
    by (by vm_compute).
  destruct (avoid_nouns_not_consulted toy_bin toy_ngrams toy_isupper σ
              (lit "nam,hk" ++ [NL]) (lit "nam,hk" ++ [NL])
              (lit "nam") (lit "hk"))
    as (_ & (σ' & Hrun & Hfile) & _).
  - done.
  - by vm_compute.
  - rewrite Hlines. apply Forall_singleton. by vm_compute.
  - rewrite Hlines. apply list_elem_of_here.
  - by vm_compute.
  - by vm_compute.
  - by vm_compute.
  - destruct Hfile as (written & Hout & Hin); [by vm_compute|].
    exists σ', written. split; [exact Hrun|]. split; [exact Hout|exact Hin].
Defined.
End ProcessorExamples.

(** ** The example generator *)

Section ChooseFacts.
Implicit Types σ : World.

Lemma choose_empty (self : Buckets) (bucket : Z) σ :
  pool self bucket (fs σ) = [] →
  choose self bucket σ = (Raise IndexError, σ).
Proof.
  unfold pool, choose. intros Hpool. rewrite mbind_run.
  destruct (lemmas self !! bucket) as [l|] eqn:Hl.
  - subst l. rewrite decide_True by (apply elem_of_dom; eauto).
    unfold mret, M_ret. by rewrite mbind_run, Hl.
  - rewrite decide_False by (by apply not_elem_of_dom).
    destruct (fs σ !! bucket_file (name self) bucket) as [content|] eqn:Hf.
    + rewrite (read_present _ _ _ content) by done.
      rewrite mbind_run. cbn [lemmas]. by rewrite lookup_insert_eq, Hl, Hpool.
    + rewrite read_missing by (by rewrite ?Hl).
      rewrite mbind_run. cbn [lemmas]. by rewrite lookup_insert_eq.
Qed.

Lemma choose_run (self : Buckets) (bucket : Z) σ :
  pool self bucket (fs σ) ≠ [] →
  ∃ lemma self',
    lemma ∈ pool self bucket (fs σ)
    ∧ choose self bucket σ
      = (Ret (lemma, self'),
         mkWorld (fs σ) (rng σ) (S (drawn σ)) (queries σ))
    ∧ name self' = name self
    ∧ lemmas self' !! bucket = Some (pool self bucket (fs σ)).
Proof.
  unfold pool, choose. intros Hpool. rewrite mbind_run.
  destruct (lemmas self !! bucket) as [l|] eqn:Hl.
  - rewrite decide_True by (apply elem_of_dom; eauto).
    unfold mret at 1, M_ret at 1. rewrite mbind_run, Hl.
    change (default [] (Some l)) with l.
    destruct (random_choice_run l σ Hpool) as (x & Hx & Hrun).
    rewrite Hrun. by exists x, self.
  - rewrite decide_False by (by apply not_elem_of_dom).
    destruct (fs σ !! bucket_file (name self) bucket) as [content|] eqn:Hf;
      [|done].
    rewrite (read_present _ _ _ content) by done.
    rewrite mbind_run. cbn [lemmas]. rewrite lookup_insert_eq, Hl.
    change (default [] (Some (default [] None ++ stripped_lines content)))
      with (stripped_lines content).
    destruct (random_choice_run (stripped_lines content) σ Hpool)
      as (x & Hx & Hrun).
    rewrite Hrun. eexists x, _. split; [done|]. split; [done|].
    split; [done|]. cbn [lemmas]. by rewrite lookup_insert_eq.
Qed.

(** Once a bucket is loaded, the files no longer matter. *)
Lemma pool_loaded (self : Buckets) (bucket : Z) l files :
  lemmas self !! bucket = Some l → pool self bucket files = l.
Proof. unfold pool. by intros ->. Qed.
End ChooseFacts.

Section GenerateFacts.
Variable b : Bin.
Variable upper : list N → list N.
Variable NounPhrase : list N → list N → list N → list N.
Variable jdump : json → list N.
Implicit Types σ : World.
Implicit Types st : GenState.

Local Abbreviation draw := (generate_draw b upper NounPhrase jdump).
Local Abbreviation loop := (generate_loop b upper NounPhrase jdump).

Section OneDraw.
Variables (out : list N) (bucket : Z) (st : GenState) (σ σ1 σ2 : World).
Variables (adj_lemma noun : list N) (adjb nounb : Buckets).
Hypothesis Hadj :
  choose (adj_buckets st) bucket σ = (Ret (adj_lemma, adjb), σ1).
Hypothesis Hnoun :
  choose (noun_buckets st) bucket σ1 = (Ret (noun, nounb), σ2).

Local Ltac start :=
  unfold generate_draw; rewrite mbind_run, Hadj; cbn beta iota;
  rewrite mbind_run, Hnoun; cbn beta iota;
  rewrite mbind_run, b_lookup_run.

Lemma draw_no_entries :
  (bin_lookup b noun).2 = [] →
  draw out bucket st σ = (Raise IndexError, with_queries σ2 [QLookup noun]).
Proof using Hadj Hnoun. intros Hnone. start. by rewrite mbind_run, Hnone. Qed.

Lemma draw_no_singular e es :
  (bin_lookup b noun).2 = e :: es →
  bin_lookup_variants b adj_lemma (lit "lo")
    (strong_tags upper (ofl e) (lit "ET")) = [] →
  ∃ σ', draw out bucket st σ = (Raise IndexError, σ') ∧ fs σ' = fs σ2.
Proof using Hadj Hnoun.
  intros He Het. start. rewrite mbind_run, He. cbn [item0].
  unfold mret at 1, M_ret at 1.
  rewrite mbind_run, b_lookup_variants_run.
  unfold strong_tags in Het. rewrite Het, mbind_run. cbn [item0].
  by eexists.
Qed.

Lemma draw_no_strong_plural e es a as_ :
  (bin_lookup b noun).2 = e :: es →
  bin_lookup_variants b adj_lemma (lit "lo")
    (strong_tags upper (ofl e) (lit "ET")) = a :: as_ →
  bin_lookup_variants b adj_lemma (lit "lo")
    (strong_tags upper (ofl e) (lit "FT")) = [] →
  ∃ σ', draw out bucket st σ = (Raise IndexError, σ') ∧ fs σ' = fs σ2.
Proof using Hadj Hnoun.
  intros He Het Hft. start. rewrite mbind_run, He. cbn [item0].
  unfold mret at 1, M_ret at 1.
  rewrite mbind_run, b_lookup_variants_run.
  unfold strong_tags in Het, Hft. rewrite Het, mbind_run. cbn [item0].
  unfold mret at 1, M_ret at 1.
  rewrite mbind_run, b_lookup_variants_run, Hft, mbind_run. cbn [item0].
  by eexists.
Qed.

(** The guarded lookup: no plural, the draw is dropped and [c] stays. *)
Lemma draw_discarded e es a as_ a' as' :
  (bin_lookup b noun).2 = e :: es →
  bin_lookup_variants b adj_lemma (lit "lo")
    (strong_tags upper (ofl e) (lit "ET")) = a :: as_ →
  bin_lookup_variants b adj_lemma (lit "lo")
    (strong_tags upper (ofl e) (lit "FT")) = a' :: as' →
  bin_lookup_variants b noun (ofl e) [lit "NF"; lit "FT"] = [] →
  ∃ qs, draw out bucket st σ
        = (Ret (mkGen (gen_c st) adjb nounb), with_queries σ2 qs).
Proof using Hadj Hnoun.
  intros He Het Hft Hpl. start. rewrite mbind_run, He. cbn [item0].
  unfold mret at 1, M_ret at 1.
  rewrite mbind_run, b_lookup_variants_run.
  unfold strong_tags in Het, Hft. rewrite Het, mbind_run. cbn [item0].
  unfold mret at 1, M_ret at 1.
  rewrite mbind_run, b_lookup_variants_run, Hft, mbind_run. cbn [item0].
  unfold mret at 1, M_ret at 1.
  rewrite mbind_run. unfold try_except.
  rewrite mbind_run, b_lookup_variants_run, Hpl, mbind_run. cbn [item0].
  unfold raise. rewrite decide_True by done.
  unfold mret, M_ret. eexists. rewrite !with_queries_app. reflexivity.
Qed.

(** All four forms exist: one line is written and [c] grows by one. *)
Lemma draw_written e es a as_ a' as' n ns :
  (bin_lookup b noun).2 = e :: es →
  bin_lookup_variants b adj_lemma (lit "lo")
    (strong_tags upper (ofl e) (lit "ET")) = a :: as_ →
  bin_lookup_variants b adj_lemma (lit "lo")
    (strong_tags upper (ofl e) (lit "FT")) = a' :: as' →
  bin_lookup_variants b noun (ofl e) [lit "NF"; lit "FT"] = n :: ns →
  ∃ qs, draw out bucket st σ
        = (Ret (mkGen (gen_c st + 1) adjb nounb),
           mkWorld
             (alter (λ content,
                content ++ jdump (example NounPhrase jdump (bmynd a) noun
                                    (bmynd a') (bmynd n)) ++ [NL])
                out (fs σ2))
             (rng σ2) (drawn σ2) (qs ++ queries σ2)).
Proof using Hadj Hnoun.
  intros He Het Hft Hpl. start. rewrite mbind_run, He. cbn [item0].
  unfold mret at 1, M_ret at 1.
  rewrite mbind_run, b_lookup_variants_run.
  unfold strong_tags in Het, Hft. rewrite Het, mbind_run. cbn [item0].
  unfold mret at 1, M_ret at 1.
  rewrite mbind_run, b_lookup_variants_run, Hft, mbind_run. cbn [item0].
  unfold mret at 1, M_ret at 1.
  rewrite mbind_run. unfold try_except.
  rewrite mbind_run, b_lookup_variants_run, Hpl, mbind_run. cbn [item0].
  exists [QLookupVariants noun (ofl e) [lit "NF"; lit "FT"];
          QLookupVariants adj_lemma (lit "lo")
            (strong_tags upper (ofl e) (lit "FT"));
          QLookupVariants adj_lemma (lit "lo")
            (strong_tags upper (ofl e) (lit "ET"));
          QLookup noun].
  reflexivity.
Qed.
End OneDraw.

Section Loop.
Variables (count : Z) (out : list N) (bucket : Z).

Lemma loop_done fuel st σ :
  (count ≤ gen_c st)%Z → loop fuel count out bucket st σ = (Ret st, σ).
Proof.
  intros Hc. destruct fuel; cbn [generate_loop];
    by destruct (Z.ltb_spec (gen_c st) count); [lia|].
Qed.

Lemma loop_out_of_fuel st σ :
  (gen_c st < count)%Z → loop 0 count out bucket st σ = (OutOfFuel, σ).
Proof.
  intros Hc. cbn [generate_loop].
  by destruct (Z.ltb_spec (gen_c st) count); [|lia].
Qed.

Lemma loop_turn fuel st σ :
  (gen_c st < count)%Z →
  loop (S fuel) count out bucket st σ
  = match draw out bucket st σ with
    | (Ret st', σ') => loop fuel count out bucket st' σ'
    | (Raise e, σ') => (Raise e, σ')
    | (OutOfFuel, σ') => (OutOfFuel, σ')
    end.
Proof.
  intros Hc. cbn [generate_loop].
  destruct (Z.ltb_spec (gen_c st) count); [|lia]. by rewrite mbind_run.
Qed.

(** One turn over a pool of nouns without plural: an exception, or the
    same counter, the same files and the same pools. *)
Lemma draw_without_plural st σ :
  (∀ noun, noun ∈ pool (noun_buckets st) bucket (fs σ) → no_plural b noun) →
  ∃ r σ',
    draw out bucket st σ = (r, σ') ∧ fs σ' = fs σ
    ∧ ((∃ e, r = Raise e)
       ∨ ∃ st', r = Ret st' ∧ gen_c st' = gen_c st
           ∧ (∀ files, pool (noun_buckets st') bucket files
                       = pool (noun_buckets st) bucket (fs σ))
           ∧ (∀ files, pool (adj_buckets st') bucket files
                       = pool (adj_buckets st) bucket (fs σ))).
Proof.
  intros Hnouns.
  destruct (decide (pool (adj_buckets st) bucket (fs σ) = [])) as [Ha|Ha].
  { exists (Raise IndexError), σ. split; [|split; [done|left; eauto]].
    unfold generate_draw. by rewrite mbind_run, choose_empty. }
  destruct (choose_run _ _ _ Ha) as (adj_lemma & adjb & _ & Hadj & _ & Hadjb).
  set (σ1 := mkWorld _ _ _ _) in Hadj.
  destruct (decide (pool (noun_buckets st) bucket (fs σ) = [])) as [Hn|Hn].
  { exists (Raise IndexError), σ1. split; [|split; [done|left; eauto]].
    unfold generate_draw. rewrite mbind_run, Hadj. cbn beta iota.
    by rewrite mbind_run, choose_empty. }
  destruct (choose_run (noun_buckets st) bucket σ1 Hn)
    as (noun & nounb & Hin & Hnoun & _ & Hnounb).
  set (σ2 := mkWorld _ _ _ _) in Hnoun.
  specialize (Hnouns noun Hin). unfold no_plural in Hnouns.
  destruct (bin_lookup b noun).2 as [|e es] eqn:He.
  { eexists _, _. split; [by eapply draw_no_entries|].
    split; [done|left; eauto]. }
  destruct (bin_lookup_variants b adj_lemma (lit "lo")
              (strong_tags upper (ofl e) (lit "ET"))) as [|a as_] eqn:Het.
  { destruct (draw_no_singular out bucket st σ σ1 σ2 adj_lemma noun adjb nounb
                Hadj Hnoun e es He Het) as (σ' & Hrun & Hfs).
    eexists _, _. split; [done|]. split; [done|left; eauto]. }
  destruct (bin_lookup_variants b adj_lemma (lit "lo")
              (strong_tags upper (ofl e) (lit "FT"))) as [|a' as'] eqn:Hft.
  { destruct (draw_no_strong_plural out bucket st σ σ1 σ2 adj_lemma noun
                adjb nounb Hadj Hnoun e es a as_ He Het Hft)
      as (σ' & Hrun & Hfs).
    eexists _, _. split; [done|]. split; [done|left; eauto]. }
  destruct (draw_discarded out bucket st σ σ1 σ2 adj_lemma noun adjb nounb
              Hadj Hnoun e es a as_ a' as' He Het Hft Hnouns) as [qs Hrun].
  eexists _, _. split; [done|]. split; [done|]. right.
  eexists. split; [done|]. split; [done|].
  split; intros files; by apply pool_loaded.
Qed.

Lemma loop_without_plural fuel : ∀ st σ,
  (gen_c st < count)%Z →
  (∀ noun, noun ∈ pool (noun_buckets st) bucket (fs σ) → no_plural b noun) →
  ∃ r σ',
    loop fuel count out bucket st σ = (r, σ') ∧ fs σ' = fs σ
    ∧ (r = OutOfFuel ∨ ∃ e, r = Raise e).
Proof.
  induction fuel as [|fuel IH]; intros st σ Hc Hnouns.
  - exists OutOfFuel, σ. by rewrite loop_out_of_fuel; eauto.
  - rewrite loop_turn by done.
    destruct (draw_without_plural st σ Hnouns)
      as (r & σ' & Hrun & Hfs & [[e ->]|(st' & -> & Hc' & Hpn & _)]);
      rewrite Hrun.
    + exists (Raise e), σ'. eauto.
    + destruct (IH st' σ') as (r & σ'' & Hloop & Hfs' & Hr).
      * lia.
      * intros noun. rewrite Hpn. apply Hnouns.
      * exists r, σ''. split; [done|]. split; [congruence|done].
Qed.

(** When no lookup fails either, every turn is a discarded draw. *)
Lemma loop_diverges fuel : ∀ st σ,
  (gen_c st < count)%Z →
  pool (adj_buckets st) bucket (fs σ) ≠ [] →
  pool (noun_buckets st) bucket (fs σ) ≠ [] →
  (∀ adj_lemma noun,
     adj_lemma ∈ pool (adj_buckets st) bucket (fs σ) →
     noun ∈ pool (noun_buckets st) bucket (fs σ) →
     forms_exist b upper adj_lemma noun ∧ no_plural b noun) →
  ∃ σ', loop fuel count out bucket st σ = (OutOfFuel, σ') ∧ fs σ' = fs σ.
Proof.
  induction fuel as [|fuel IH]; intros st σ Hc Ha Hn Hforms.
  - exists σ. by rewrite loop_out_of_fuel.
  - rewrite loop_turn by done.
    destruct (choose_run _ _ _ Ha)
      as (adj_lemma & adjb & Hina & Hadj & _ & Hadjb).
    set (σ1 := mkWorld _ _ _ _) in Hadj.
    destruct (choose_run (noun_buckets st) bucket σ1 Hn)
      as (noun & nounb & Hinn & Hnoun & _ & Hnounb).
    set (σ2 := mkWorld _ _ _ _) in Hnoun.
    destruct (Hforms adj_lemma noun Hina Hinn)
      as [(e & es & He & Het & Hft) Hpl].
    unfold no_plural in Hpl. rewrite He in Hpl.
    destruct (bin_lookup_variants b adj_lemma (lit "lo")
                (strong_tags upper (ofl e) (lit "ET"))) as [|a as_] eqn:Het';
      [done|].
    destruct (bin_lookup_variants b adj_lemma (lit "lo")
                (strong_tags upper (ofl e) (lit "FT"))) as [|a' as'] eqn:Hft';
      [done|].
    destruct (draw_discarded out bucket st σ σ1 σ2 adj_lemma noun adjb nounb
                Hadj Hnoun e es a as_ a' as' He Het' Hft' Hpl) as [qs Hrun].
    rewrite Hrun.
    destruct (IH (mkGen (gen_c st) adjb nounb) (with_queries σ2 qs))
      as (σ' & Hloop & Hfs).
    + done.
    + cbn [adj_buckets]. by rewrite (pool_loaded _ _ _ _ Hadjb).
    + cbn [noun_buckets]. by rewrite (pool_loaded _ _ _ _ Hnounb).
    + cbn [adj_buckets noun_buckets]. intros a0 n0.
      rewrite (pool_loaded _ _ _ _ Hadjb), (pool_loaded _ _ _ _ Hnounb).
      apply Hforms.
    + exists σ'. split; [done|]. by rewrite Hfs.
Qed.
End Loop.

Lemma output_file_not_bucket_file difficulty (name0 : list N) (bucket : Z) :
  name0 = lit "adj" ∨ name0 = lit "nouns" →
  output_file difficulty ≠ bucket_file name0 bucket.
Proof.
  intros [-> | ->] Heq; apply (f_equal head) in Heq;
    vm_compute in Heq; discriminate.
Qed.

Lemma pool_open_w (self : Buckets) (bucket : Z) difficulty σ :
  name self = lit "adj" ∨ name self = lit "nouns" →
  pool self bucket (fs (open_w (output_file difficulty) σ).2)
  = pool self bucket (fs σ).
Proof.
  intros Hname. unfold pool, open_w. cbn [fs snd].
  rewrite lookup_insert_ne; [done|].
  by apply output_file_not_bucket_file.
Qed.

Lemma generate_bucket_run fuel count (stores : Buckets * Buckets) bucket
    difficulty σ :
  DIFFICULTY bucket = Some difficulty →
  generate_bucket b upper NounPhrase jdump fuel count stores bucket σ
  = match loop fuel count (output_file difficulty) bucket
            (mkGen 0 stores.1 stores.2) (open_w (output_file difficulty) σ).2
    with
    | (Ret st, σ') => (Ret (adj_buckets st, noun_buckets st), σ')
    | (Raise e, σ') => (Raise e, σ')
    | (OutOfFuel, σ') => (OutOfFuel, σ')
    end.
Proof.
  intros Hd. unfold generate_bucket. rewrite Hd.
  rewrite mbind_run. unfold open_w at 1. by rewrite mbind_run.
Qed.

(** An exception in one bucket ends [generate]: the buckets after it are
    not started. *)
Lemma generate_raise fuel count l1 l2 bucket stores σ σ1 σ' e :
  seqZ 0 MAX_BUCKETS = l1 ++ bucket :: l2 →
  for_each l1 (generate_bucket b upper NounPhrase jdump fuel count)
    (Buckets_new (lit "adj"), Buckets_new (lit "nouns")) σ = (Ret stores, σ1) →
  generate_bucket b upper NounPhrase jdump fuel count stores bucket σ1
  = (Raise e, σ') →
  generate b upper NounPhrase jdump fuel count σ = (Raise e, σ').
Proof.
  intros Hsplit Hbefore Hraise. unfold generate. rewrite Hsplit, mbind_run.
  clear Hsplit. revert Hbefore.
  generalize (Buckets_new (lit "adj"), Buckets_new (lit "nouns")).
  revert σ. induction l1 as [|k l1 IH]; intros σ s0 Hbefore.
  - cbn in Hbefore. injection Hbefore as -> ->.
    cbn [app for_each]. by rewrite mbind_run, Hraise.
  - cbn [app for_each] in *. rewrite mbind_run in *.
    destruct (generate_bucket _ _ _ _ _ _ _ k σ) as [[s1| |] σk];
      try done. by apply IH.
Qed.

(** C3: a draw whose noun has no nominative plural is dropped: the turn
    ends with the counter and the files as they were, and the loop goes on
    to the next turn. So when every noun of the bucket is like that and
    [count] is positive, the loop for the bucket never completes, whatever
    the bound on its turns: it is still running when the bound is reached,
    unless an exception ended it; and it is still running for every bound
    when no draw raises. *)
Theorem plural_less_nouns_never_complete :
  (∀ out bucket st σ σ1 σ2 adj_lemma noun adjb nounb e es a as_ a' as'
     count fuel,
     choose (adj_buckets st) bucket σ = (Ret (adj_lemma, adjb), σ1) →
     choose (noun_buckets st) bucket σ1 = (Ret (noun, nounb), σ2) →
     (gen_c st < count)%Z →
     (bin_lookup b noun).2 = e :: es →
     bin_lookup_variants b adj_lemma (lit "lo")
       (strong_tags upper (ofl e) (lit "ET")) = a :: as_ →
     bin_lookup_variants b adj_lemma (lit "lo")
       (strong_tags upper (ofl e) (lit "FT")) = a' :: as' →
     bin_lookup_variants b noun (ofl e) [lit "NF"; lit "FT"] = [] →
     ∃ qs,
       draw out bucket st σ
       = (Ret (mkGen (gen_c st) adjb nounb), with_queries σ2 qs)
       ∧ loop (S fuel) count out bucket st σ
         = loop fuel count out bucket (mkGen (gen_c st) adjb nounb)
             (with_queries σ2 qs))
  ∧ (∀ fuel count (stores : Buckets * Buckets) bucket σ,
       name stores.1 = lit "adj" → name stores.2 = lit "nouns" →
       (0 < count)%Z →
       (∀ noun, noun ∈ pool stores.2 bucket (fs σ) → no_plural b noun) →
       ∃ r σ',
         generate_bucket b upper NounPhrase jdump fuel count stores bucket σ
         = (r, σ')
         ∧ (r = OutOfFuel ∨ ∃ e, r = Raise e))
  ∧ (∀ fuel count (stores : Buckets * Buckets) bucket difficulty σ,
       name stores.1 = lit "adj" → name stores.2 = lit "nouns" →
       (0 < count)%Z →
       DIFFICULTY bucket = Some difficulty →
       pool stores.1 bucket (fs σ) ≠ [] →
       pool stores.2 bucket (fs σ) ≠ [] →
       (∀ adj_lemma noun,
          adj_lemma ∈ pool stores.1 bucket (fs σ) →
          noun ∈ pool stores.2 bucket (fs σ) →
          forms_exist b upper adj_lemma noun ∧ no_plural b noun) →
       ∃ σ',
         generate_bucket b upper NounPhrase jdump fuel count stores bucket σ
         = (OutOfFuel, σ')).
Proof.
  split; [|split].
  - intros out bucket st σ σ1 σ2 adj_lemma noun adjb nounb e es a as_ a' as'
      count fuel Hadj Hnoun Hc He Het Hft Hpl.
    destruct (draw_discarded out bucket st σ σ1 σ2 adj_lemma noun adjb nounb
                Hadj Hnoun e es a as_ a' as' He Het Hft Hpl) as [qs Hrun].
    exists qs. split; [done|]. by rewrite loop_turn, Hrun.
  - intros fuel count stores bucket σ Hadj Hnouns Hcount Hpl.
    destruct (DIFFICULTY bucket) as [difficulty|] eqn:Hd.
    + rewrite (generate_bucket_run _ _ _ _ difficulty) by done.
      destruct (loop_without_plural count (output_file difficulty) bucket fuel
                  (mkGen 0 stores.1 stores.2)
                  (open_w (output_file difficulty) σ).2)
        as (r & σ' & Hloop & _ & Hr).
      * done.
      * cbn [noun_buckets]. intros noun.
        rewrite pool_open_w by (by right). apply Hpl.
      * rewrite Hloop.
        destruct Hr as [->|[e ->]]; eexists _, _; (split; [reflexivity|eauto]).
    + unfold generate_bucket. rewrite Hd. exists (Raise KeyError), σ. eauto.
  - intros fuel count stores bucket difficulty σ Hadj Hnouns Hcount Hd Ha Hn
      Hforms.
    rewrite (generate_bucket_run _ _ _ _ difficulty) by done.
    destruct (loop_diverges count (output_file difficulty) bucket fuel
                (mkGen 0 stores.1 stores.2)
                (open_w (output_file difficulty) σ).2)
      as (σ' & Hloop & _).
    + done.
    + cbn [adj_buckets]. by rewrite pool_open_w by (by left).
    + cbn [noun_buckets]. by rewrite pool_open_w by (by right).
    + cbn [adj_buckets noun_buckets]. intros a0 n0.
      rewrite (pool_open_w stores.1) by (by left).
      rewrite (pool_open_w stores.2) by (by right). apply Hforms.
    + rewrite Hloop. by exists σ'.
Qed.

(** C10: only the lookup of the noun's plural is inside the [try]. When
    the dictionary has no entry for the drawn noun, or no strong nominative
    singular or plural of the drawn adjective, the turn raises
    [IndexError]; the loop does not take another turn but raises it too,
    and so do the enclosing [for] loop and [generate], without starting
    the buckets that follow. *)
Theorem unguarded_lookup_aborts out bucket st σ σ1 σ2 adj_lemma noun
    adjb nounb count fuel :
  choose (adj_buckets st) bucket σ = (Ret (adj_lemma, adjb), σ1) →
  choose (noun_buckets st) bucket σ1 = (Ret (noun, nounb), σ2) →
  (gen_c st < count)%Z →
  (bin_lookup b noun).2 = []
  ∨ (∃ e es,
       (bin_lookup b noun).2 = e :: es
       ∧ (bin_lookup_variants b adj_lemma (lit "lo")
            (strong_tags upper (ofl e) (lit "ET")) = []
          ∨ bin_lookup_variants b adj_lemma (lit "lo")
              (strong_tags upper (ofl e) (lit "FT")) = [])) →
  ∃ σ',
    draw out bucket st σ = (Raise IndexError, σ')
    ∧ fs σ' = fs σ2
    ∧ loop (S fuel) count out bucket st σ = (Raise IndexError, σ')
    ∧ (∀ (stores : Buckets * Buckets) difficulty σ0 l1 l2 σstart,
         DIFFICULTY bucket = Some difficulty →
         out = output_file difficulty →
         st = mkGen 0 stores.1 stores.2 →
         σ = (open_w out σ0).2 →
         seqZ 0 MAX_BUCKETS = l1 ++ bucket :: l2 →
         for_each l1 (generate_bucket b upper NounPhrase jdump (S fuel) count)
           (Buckets_new (lit "adj"), Buckets_new (lit "nouns")) σstart
         = (Ret stores, σ0) →
         generate_bucket b upper NounPhrase jdump (S fuel) count stores
           bucket σ0 = (Raise IndexError, σ')
         ∧ generate b upper NounPhrase jdump (S fuel) count σstart
           = (Raise IndexError, σ')).
Proof.
  intros Hadj Hnoun Hc Hfail.
  assert (Hdraw : ∃ σ', draw out bucket st σ = (Raise IndexError, σ')
                        ∧ fs σ' = fs σ2).
  { destruct Hfail as [Hnone|(e & es & He & Hforms)].
    - eexists. split; [by eapply draw_no_entries|done].
    - destruct (bin_lookup_variants b adj_lemma (lit "lo")
                  (strong_tags upper (ofl e) (lit "ET"))) as [|a as_] eqn:Het.
      + by eapply draw_no_singular.
      + destruct Hforms as [?|Hft]; [done|]. by eapply draw_no_strong_plural. }
  destruct Hdraw as (σ' & Hdraw & Hfs). exists σ'.
  assert (Hloop : loop (S fuel) count out bucket st σ = (Raise IndexError, σ'))
    by (by rewrite loop_turn, Hdraw).
  split; [done|]. split; [done|]. split; [done|].
  intros stores difficulty σ0 l1 l2 σstart Hd -> -> -> Hsplit Hbefore.
  assert (Hbucket : generate_bucket b upper NounPhrase jdump (S fuel) count
                      stores bucket σ0 = (Raise IndexError, σ'))
    by (by rewrite (generate_bucket_run _ _ _ _ difficulty), Hloop).
  split; [done|]. by eapply generate_raise.
Qed.
End GenerateFacts.

Section GenerateExamples.

Lemma plural_less_nouns_never_complete_witness :
  let σ := toy_world [(bucket_file (lit "adj") 0, lit "gulur" ++ [NL]);
                      (bucket_file (lit "nouns") 0, lit "kaffi" ++ [NL])] in
  let stores := (Buckets_new (lit "adj"), Buckets_new (lit "nouns")) in
  no_plural toy_bin (lit "kaffi") ∧
  ∃ σ', generate_bucket toy_bin toy_upper toy_NounPhrase json_dumps 25 10
          stores 0 σ = (OutOfFuel, σ').
Proof.
  intros σ stores.
  assert (Hkaffi : no_plural toy_bin (lit "kaffi")) by (by vm_compute).
  split; [done|].
  destruct (plural_less_nouns_never_complete toy_bin toy_upper toy_NounPhrase
              json_dumps) as (_ & _ & Hdiverges).
  assert (Hadj : pool stores.1 0 (fs σ) = [lit "gulur"]) by (by vm_compute).
  assert (Hnouns : pool stores.2 0 (fs σ) = [lit "kaffi"]) by (by vm_compute).
  apply (Hdiverges 25 10%Z stores 0%Z (lit "hard") σ).
  - reflexivity.
  - reflexivity.
  - lia.
  - by vm_compute.
  - by rewrite Hadj.
  - by rewrite Hnouns.
  - intros adj_lemma noun. rewrite Hadj, Hnouns.
    intros ->%list_elem_of_singleton ->%list_elem_of_singleton.
    split; [|done].
    exists (mkEntry (lit "kaffi") (lit "hk") (lit "kaffi")), [].
    split; [by vm_compute|]. split; by vm_compute.
Defined.

Lemma unguarded_lookup_aborts_witness :
  let σ := toy_world [(bucket_file (lit "adj") 0, lit "gulur" ++ [NL]);
                      (bucket_file (lit "nouns") 0, lit "draumur" ++ [NL])] in
  (bin_lookup toy_bin (lit "draumur")).2 = [] ∧
  ∃ σ', generate toy_bin toy_upper toy_NounPhrase json_dumps 1 10 σ
        = (Raise IndexError, σ').
Proof.
  intros σ.
  assert (Hnone : (bin_lookup toy_bin (lit "draumur")).2 = [])
    by (by vm_compute).
  split; [done|].
  set (out := output_file (lit "hard")).
  set (stores := (Buckets_new (lit "adj"), Buckets_new (lit "nouns"))).
  set (σ0 := (open_w out σ).2).
  set (adjb := mkBuckets (lit "adj") [] {[ 0%Z := [lit "gulur"] ]}).
  set (nounb := mkBuckets (lit "nouns") [] {[ 0%Z := [lit "draumur"] ]}).
  destruct (unguarded_lookup_aborts toy_bin toy_upper toy_NounPhrase
              json_dumps out 0 (mkGen 0 stores.1 stores.2) σ0
              (mkWorld (fs σ0) (rng σ0) 1 []) (mkWorld (fs σ0) (rng σ0) 2 [])
              (lit "gulur") (lit "draumur") adjb nounb 10 0)
    as (σ' & _ & _ & _ & Hrun).
  - by vm_compute.
  - by vm_compute.
  - cbn. lia.
  - by left.
  - exists σ'.
    by destruct (Hrun stores (lit "hard") σ [] [1%Z; 2%Z] σ) as [_ ?].
Defined.
End GenerateExamples.

(** * Further properties *)

Section BucketExtras.
Local Open Scope Z_scope.

End BucketExtras.



Section BucketStoreExtras.
Implicit Types σ : World.
Implicit Types self : Buckets.


Lemma dict_add_idemp (b : Z) (lemma : list N) d :
  dict_add b lemma (dict_add b lemma d) = dict_add b lemma d.
Proof.
  induction d as [|[k s] d IH].
  - cbn. rewrite decide_True by done. do 2 f_equal.
    rewrite <- ?(assoc_L (∪)). by rewrite (idemp_L (∪)).
  - cbn [dict_add]. destruct (decide (k = b)) as [->|Hne]; cbn [dict_add].
    + rewrite decide_True by done. do 2 f_equal.
      rewrite <- ?(assoc_L (∪)). by rewrite (idemp_L (∪)).
    + rewrite decide_False by done. by rewrite IH.
Qed.


Lemma dict_add_elem (b : Z) (lemma : list N) d k s :
  (k, s) ∈ dict_add b lemma d →
  (k = b ∧ lemma ∈ s) ∨ (k, s) ∈ d.
Proof.
  induction d as [|[k' s'] d IH]; cbn [dict_add].
  - intros [= -> ->]%list_elem_of_singleton. left. set_solver.
  - destruct (decide (k' = b)) as [->|Hne].
    + intros [[= -> ->]|Hin]%elem_of_cons.
      * left. set_solver.
      * right. by apply list_elem_of_further.
    + intros [[= -> ->]|Hin]%elem_of_cons.
      * right. apply list_elem_of_here.
      * destruct (IH Hin) as [?|?]; [by left|].
        right. by apply list_elem_of_further.
Qed.














End BucketStoreExtras.

Section SplitFacts.
Implicit Types s : list N.

Lemma split_nonempty sep s : split sep s ≠ [].
Proof.
  destruct s as [|c s]; [done|]. cbn [split].
  destruct (c =? sep)%N; [done|]. by destruct (split sep s).
Qed.

Lemma split_join sep s : join [sep] (split sep s) = s.
Proof.
  induction s as [|c s IH]; [done|]. cbn [split].
  destruct (N.eqb_spec c sep) as [->|Hne].
  - pose proof (split_nonempty sep s).
    destruct (split sep s) as [|f fs] eqn:Hsp; [done|].
    cbn [join app]. by rewrite <- IH.
  - destruct (split sep s) as [|f fs] eqn:Hsp.
    + by destruct (split_nonempty sep s).
    + rewrite <- IH. by destruct fs.
Qed.

Lemma split_fields sep s : Forall (λ f, sep ∉ f) (split sep s).
Proof.
  induction s as [|c s IH].
  - apply Forall_singleton, not_elem_of_nil.
  - cbn [split]. destruct (N.eqb_spec c sep) as [->|Hne].
    + constructor; [apply not_elem_of_nil|done].
    + destruct (split sep s) as [|f fs].
      * apply Forall_singleton, not_elem_of_cons.
        split; [congruence|apply not_elem_of_nil].
      * apply Forall_cons in IH as [Hf Hfs].
        constructor; [|done]. apply not_elem_of_cons. split; [congruence|done].
Qed.

Lemma split_one sep s : sep ∉ s → split sep s = [s].
Proof.
  induction s as [|c s IH]; [done|].
  intros [Hc Hs]%not_elem_of_cons. cbn [split].
  destruct (N.eqb_spec c sep); [done|]. by rewrite IH.
Qed.

Lemma split_app sep s t :
  sep ∉ s → split sep (s ++ sep :: t) = s :: split sep t.
Proof.
  induction s as [|c s IH]; intros Hs.
  - cbn. by rewrite N.eqb_refl.
  - apply not_elem_of_cons in Hs as [Hc Hs]. cbn [app split].
    destruct (N.eqb_spec c sep); [done|]. by rewrite IH.
Qed.
End SplitFacts.

Section GeneratorExtras.
Variable isupper : N → bool.



(** [adjective_generator] yields the lines that [Buckets.read] would keep. *)
Lemma adjective_generator_lines content :
  omap adjective_generator_line (readlines content) = stripped_lines content.
Proof.
  unfold stripped_lines. induction (readlines content) as [|line lines IH];
    [done|].
  cbn [omap list_omap fmap list_fmap]. unfold adjective_generator_line at 1.
  destruct (decide (strip line ≠ [])) as [Hne|Heq].
  - rewrite filter_cons_True by done. by rewrite <- IH.
  - rewrite filter_cons_False by done. by rewrite <- IH.
Qed.
End GeneratorExtras.

Section ProcessorExtras.
Variable b : Bin.
Variable ngrams : list N → Z.
Implicit Types σ : World.
Implicit Types store : Buckets.

Lemma unambiguous_spec lemma category :
  unambiguous b lemma category = true
  ↔ ∀ wf e, wf ∈ word_forms b lemma category → e ∈ (bin_lookup b wf).2 →
            ofl e = category ∧ ord e = lemma.
Proof.
  unfold unambiguous. rewrite forallb_forall. split.
  - intros Hall wf e Hwf He.
    apply elem_of_elements, list_elem_of_In in Hwf.
    specialize (Hall wf Hwf). rewrite forallb_forall in Hall.
    apply list_elem_of_In in He. specialize (Hall e He).
    apply andb_true_iff in Hall as [H1 H2].
    split; by eapply bool_decide_eq_true_1.
  - intros Hall wf Hwf. apply forallb_forall. intros e He.
    apply list_elem_of_In, elem_of_elements in Hwf.
    apply list_elem_of_In in He.
    destruct (Hall wf e Hwf He) as [H1 H2].
    by rewrite !bool_decide_eq_true_2.
Qed.




(** The buckets after a loop whose body filters the candidate of each
    line. *)
Lemma foldl_filtered {A} (candidate : A → option (list N * list N))
    (step : Buckets → A → Buckets) (k : Z) (lemma : list N) :
  (∀ s x, step s x = match candidate x with
                     | Some (l, c) => filtered b ngrams s l c
                     | None => s
                     end) →
  ∀ xs s0,
    lemma ∈ dict_get k (buckets (foldl step s0 xs))
    ↔ lemma ∈ dict_get k (buckets s0)
      ∨ ∃ x category,
          x ∈ xs ∧ candidate x = Some (lemma, category)
          ∧ single_meaning b lemma category = true
          ∧ unambiguous b lemma category = true
          ∧ bucket (frequency b ngrams lemma category) = k.
Proof.
  intros Hstep. induction xs as [|x xs IH]; intros s0.
  - cbn. split; [by left|]. intros [?|(x & c & Hx & _)]; [done|].
    by apply elem_of_nil in Hx.
  - cbn [foldl]. rewrite IH, Hstep. split.
    + intros [Hl|(x' & c & Hx' & Hrest)].
      * destruct (candidate x) as [[l c]|] eqn:Hcand; [|by left].
        unfold filtered in Hl.
        destruct (single_meaning b l c) eqn:Hone; [|by left].
        destruct (unambiguous b l c) eqn:Hun; [|by left].
        cbn [andb add buckets] in Hl. rewrite dict_get_add in Hl.
        case_decide as Hk; [|by left].
        apply elem_of_union in Hl as [Hl| ->%elem_of_singleton].
        -- left. by subst.
        -- right. exists x, c. split; [apply list_elem_of_here|done].
      * right. exists x', c. split; [by apply list_elem_of_further|done].
    + intros [Hl|(x' & c & [->|Hx']%elem_of_cons & Hcand & Hone & Hun & Hk)].
      * left. destruct (candidate x) as [[l c]|]; [|done].
        by apply filtered_keeps.
      * left. rewrite Hcand. subst k. by apply filtered_adds.
      * right. exists x', c. eauto.
Qed.

Lemma noun_store_wf isupper lines :
  let store := foldl (noun_step isupper b ngrams) (Buckets_new (lit "nouns"))
                 lines in
  name store = lit "nouns" ∧ dict_wf (buckets store).
Proof.
  apply (foldl_invariant (λ s, name s = lit "nouns" ∧ dict_wf (buckets s))).
  - split; [done|apply NoDup_nil_2].
  - intros s l _ [Hn Hwf]. unfold noun_step.
    repeat case_match; try done.
    split; [by rewrite filtered_name|by apply filtered_wf].
Qed.

Lemma adjective_store_wf lines :
  let store := foldl (adjective_step b ngrams) (Buckets_new (lit "adj"))
                 lines in
  name store = lit "adj" ∧ dict_wf (buckets store).
Proof.
  apply (foldl_invariant (λ s, name s = lit "adj" ∧ dict_wf (buckets s))).
  - split; [done|apply NoDup_nil_2].
  - intros s l _ [Hn Hwf]. unfold adjective_step.
    repeat case_match; try done.
    split; [by rewrite filtered_name|by apply filtered_wf].
Qed.

Lemma noun_store_elem isupper lines (k : Z) lemma :
  lemma ∈ dict_get k (buckets (foldl (noun_step isupper b ngrams)
                                 (Buckets_new (lit "nouns")) lines))
  ↔ ∃ line gender,
      line ∈ lines
      ∧ noun_generator_line isupper line = Ret (Some (lemma, gender))
      ∧ single_meaning b lemma gender = true
      ∧ unambiguous b lemma gender = true
      ∧ bucket (frequency b ngrams lemma gender) = k.
Proof.
  rewrite (foldl_filtered (noun_candidate isupper)).
  - cbn. split.
    + intros [?|(line & gender & Hin & Hcand & Hrest)]; [done|].
      exists line, gender. split; [done|]. split; [|done].
      unfold noun_candidate in Hcand.
      by repeat case_match; simplify_eq.
    + intros (line & gender & Hin & Hgen & Hrest). right.
      exists line, gender. split; [done|]. split; [|done].
      unfold noun_candidate. by rewrite Hgen.
  - intros s x. unfold noun_step, noun_candidate.
    by repeat case_match; simplify_eq.
Qed.

Lemma adjective_store_elem content (k : Z) lemma :
  lemma ∈ dict_get k (buckets (foldl (adjective_step b ngrams)
                                 (Buckets_new (lit "adj")) (readlines content)))
  ↔ lemma ∈ stripped_lines content
    ∧ excluded_adjective lemma = false
    ∧ single_meaning b lemma (lit "lo") = true
    ∧ unambiguous b lemma (lit "lo") = true
    ∧ bucket (frequency b ngrams lemma (lit "lo")) = k.
Proof.
  rewrite (foldl_filtered adjective_candidate).
  - cbn. rewrite <- adjective_generator_lines.
    rewrite list_elem_of_omap. split.
    + intros [?|(line & category & Hin & Hcand & Hrest)]; [done|].
      unfold adjective_candidate in Hcand.
      destruct (adjective_generator_line line) as [l|] eqn:Hgen; [|done].
      destruct (excluded_adjective l) eqn:Hex; [done|].
      injection Hcand as -> <-. split; [by exists line|]. by split.
    + intros ((line & Hin & Hgen) & Hex & Hrest). right.
      exists line, (lit "lo"). split; [done|]. split; [|done].
      unfold adjective_candidate. by rewrite Hgen, Hex.
  - intros s x. unfold adjective_step, adjective_candidate.
    by repeat case_match; simplify_eq.
Qed.


End ProcessorExtras.

Section ChooseFrame.
Implicit Types σ : World.

(** [choose] changes nothing of the store but the list of its bucket. *)
Lemma choose_keeps (self : Buckets) (bucket : Z) σ lemma self' σ' :
  choose self bucket σ = (Ret (lemma, self'), σ') →
  name self' = name self ∧ buckets self' = buckets self
  ∧ ∀ k : Z, k ≠ bucket → lemmas self' !! k = lemmas self !! k.
Proof.
  unfold choose. rewrite mbind_run.
  destruct (decide (bucket ∈ dom (lemmas self))) as [Hin|Hout].
  - unfold mret at 1, M_ret at 1. rewrite mbind_run.
    destruct (random_choice _ σ) as [[x| |] σ1]; [|done..].
    by intros [= _ <- _].
  - apply not_elem_of_dom in Hout.
    destruct (fs σ !! bucket_file (name self) bucket) as [content|] eqn:Hf.
    + rewrite (read_present _ _ _ content) by done. rewrite mbind_run.
      destruct (random_choice _ σ) as [[x| |] σ1]; [|done..].
      intros [= _ <- _]. split; [done|]. split; [done|].
      intros k Hk. cbn [lemmas]. by rewrite lookup_insert_ne.
    + rewrite read_missing by (by rewrite ?Hout). rewrite mbind_run.
      destruct (random_choice _ σ) as [[x| |] σ1]; [|done..].
      intros [= _ <- _]. split; [done|]. split; [done|].
      intros k Hk. cbn [lemmas]. by rewrite lookup_insert_ne.
Qed.

(** What [choose] draws from depends on the name of the store, the list
    of the bucket and the file of the bucket only. *)
Lemma pool_frame (self self' : Buckets) (bucket : Z)
    (files files' : gmap (list N) (list N)) :
  name self' = name self →
  lemmas self' !! bucket = lemmas self !! bucket →
  files' !! bucket_file (name self) bucket
  = files !! bucket_file (name self) bucket →
  pool self' bucket files' = pool self bucket files.
Proof. unfold pool. by intros -> -> ->. Qed.
End ChooseFrame.

Section GenerateExtras.
Variable b : Bin.
Variable upper : list N → list N.
Variable NounPhrase : str → str → str → str.
Variable jdump : json → list N.
Implicit Types σ : World.
Implicit Types st : GenState.

Local Abbreviation draw := (generate_draw b upper NounPhrase jdump).
Local Abbreviation loop := (generate_loop b upper NounPhrase jdump).
Local Abbreviation line_for := (example_line b upper NounPhrase jdump).

(** A turn whose four lookups succeed. *)
Lemma draw_example out bucket st σ content :
  pool (adj_buckets st) bucket (fs σ) ≠ [] →
  pool (noun_buckets st) bucket (fs σ) ≠ [] →
  (∀ adj_lemma noun,
     adj_lemma ∈ pool (adj_buckets st) bucket (fs σ) →
     noun ∈ pool (noun_buckets st) bucket (fs σ) →
     is_Some (line_for adj_lemma noun)) →
  fs σ !! out = Some content →
  ∃ st' σ' adj_lemma noun line,
    draw out bucket st σ = (Ret st', σ')
    ∧ adj_lemma ∈ pool (adj_buckets st) bucket (fs σ)
    ∧ noun ∈ pool (noun_buckets st) bucket (fs σ)
    ∧ line_for adj_lemma noun = Some line
    ∧ gen_c st' = (gen_c st + 1)%Z
    ∧ fs σ' = <[out := content ++ line ++ [NL]]> (fs σ)
    ∧ rng σ' = rng σ ∧ drawn σ' = drawn σ + 2
    ∧ lemmas (adj_buckets st') !! bucket
      = Some (pool (adj_buckets st) bucket (fs σ))
    ∧ lemmas (noun_buckets st') !! bucket
      = Some (pool (noun_buckets st) bucket (fs σ))
    ∧ name (adj_buckets st') = name (adj_buckets st)
    ∧ name (noun_buckets st') = name (noun_buckets st)
    ∧ ∀ k : Z, k ≠ bucket →
        lemmas (adj_buckets st') !! k = lemmas (adj_buckets st) !! k
        ∧ lemmas (noun_buckets st') !! k = lemmas (noun_buckets st) !! k.
Proof.
  intros Ha Hn Hforms Hout.
  destruct (choose_run _ _ _ Ha) as (adj_lemma & adjb & Hina & Hadj & _ & Hadjb).
  set (σ1 := mkWorld _ _ _ _) in Hadj.
  destruct (choose_run (noun_buckets st) bucket σ1 Hn)
    as (noun & nounb & Hinn & Hnoun & _ & Hnounb).
  set (σ2 := mkWorld _ _ _ _) in Hnoun.
  destruct (Hforms adj_lemma noun Hina Hinn) as [line Hline].
  pose proof Hline as Hline'. unfold example_line in Hline.
  destruct (bin_lookup b noun).2 as [|e es] eqn:He; [done|].
  destruct (bin_lookup_variants b adj_lemma (lit "lo")
              (strong_tags upper (ofl e) (lit "ET"))) as [|a as_] eqn:Het;
    [done|].
  destruct (bin_lookup_variants b adj_lemma (lit "lo")
              (strong_tags upper (ofl e) (lit "FT"))) as [|a' as'] eqn:Hft;
    [done|].
  destruct (bin_lookup_variants b noun (ofl e) [lit "NF"; lit "FT"])
    as [|n ns] eqn:Hpl; [done|].
  injection Hline as <-.
  destruct (draw_written b upper NounPhrase jdump out bucket st σ σ1 σ2
              adj_lemma noun adjb nounb Hadj Hnoun e es a as_ a' as' n ns
              He Het Hft Hpl) as [qs Hrun].
  eexists _, _, adj_lemma, noun, _. split; [exact Hrun|].
  split; [done|]. split; [done|]. split; [done|]. split; [done|].
  unfold σ2, σ1. cbn [fs rng drawn adj_buckets noun_buckets].
  split; [by rewrite (alter_alt_Some _ _ _ _ Hout)|].
  split; [done|]. split; [lia|]. split; [done|]. split; [done|].
  destruct (choose_keeps _ _ _ _ _ _ Hadj) as (Hna & _ & Hla).
  destruct (choose_keeps _ _ _ _ _ _ Hnoun) as (Hnn & _ & Hln).
  split; [done|]. split; [done|].
  intros k Hk. split; [by apply Hla|by apply Hln].
Qed.

Section LoopCompletes.
Variables (count : Z) (out : list N) (bucket : Z).
Variables (adjs nouns : list (list N)).
Hypothesis Hadjs : adjs ≠ [].
Hypothesis Hnouns : nouns ≠ [].
Hypothesis Hforms :
  ∀ adj_lemma noun, adj_lemma ∈ adjs → noun ∈ nouns →
                    is_Some (line_for adj_lemma noun).

Lemma loop_completes fuel : ∀ st σ content,
  (count - gen_c st ≤ Z.of_nat fuel)%Z →
  pool (adj_buckets st) bucket (fs σ) = adjs →
  pool (noun_buckets st) bucket (fs σ) = nouns →
  fs σ !! out = Some content →
  ∃ st' σ' lines,
    loop fuel count out bucket st σ = (Ret st', σ')
    ∧ gen_c st' = Z.max count (gen_c st)
    ∧ Z.of_nat (length lines) = Z.max 0 (count - gen_c st)
    ∧ fs σ' = <[out := content ++ file_of_lines lines]> (fs σ)
    ∧ Forall (λ line, ∃ adj_lemma noun,
                adj_lemma ∈ adjs ∧ noun ∈ nouns
                ∧ line_for adj_lemma noun = Some line) lines
    ∧ rng σ' = rng σ ∧ drawn σ' = drawn σ + 2 * length lines
    ∧ name (adj_buckets st') = name (adj_buckets st)
    ∧ name (noun_buckets st') = name (noun_buckets st)
    ∧ ∀ k : Z, k ≠ bucket →
        lemmas (adj_buckets st') !! k = lemmas (adj_buckets st) !! k
        ∧ lemmas (noun_buckets st') !! k = lemmas (noun_buckets st) !! k.
Proof using Hadjs Hnouns Hforms.
  induction fuel as [|fuel IH]; intros st σ content Hfuel Ha Hn Hout.
  - exists st, σ, []. rewrite loop_done by lia.
    split; [done|]. split; [lia|]. split; [cbn; lia|].
    split; [by rewrite app_nil_r, insert_id|]. split; [done|].
    split; [done|]. split; [cbn; lia|]. done.
  - destruct (Z.lt_ge_cases (gen_c st) count) as [Hc|Hc].
    2:{ exists st, σ, []. rewrite loop_done by lia.
        split; [done|]. split; [lia|]. split; [cbn; lia|].
        split; [by rewrite app_nil_r, insert_id|]. split; [done|].
        split; [done|]. split; [cbn; lia|]. done. }
    rewrite loop_turn by done.
    destruct (draw_example out bucket st σ content)
      as (st1 & σ1 & adj_lemma & noun & line & Hdraw & Hina & Hinn & Hline
          & Hc1 & Hfs1 & Hrng1 & Hdrawn1 & Hadjb & Hnounb & Hna1 & Hnn1
          & Hframe1).
    { by rewrite Ha. } { by rewrite Hn. }
    { rewrite Ha, Hn. apply Hforms. } { done. }
    rewrite Hdraw.
    destruct (IH st1 σ1 (content ++ line ++ [NL]))
      as (st' & σ' & lines & Hloop & Hc' & Hlen & Hfs & Hlines & Hrng & Hdrawn
          & Hna & Hnn & Hframe).
    + lia.
    + rewrite (pool_loaded _ _ _ _ Hadjb). done.
    + rewrite (pool_loaded _ _ _ _ Hnounb). done.
    + rewrite Hfs1. apply lookup_insert_eq.
    + exists st', σ', (line :: lines). split; [done|]. split; [lia|].
      split; [cbn [length]; lia|]. split.
      { rewrite Hfs, Hfs1, insert_insert_eq. f_equal.
        unfold file_of_lines. cbn. by rewrite <- !app_assoc. }
      split.
      { constructor; [|done]. exists adj_lemma, noun.
        rewrite <- Ha, <- Hn. done. }
      split; [congruence|]. split; [cbn [length]; lia|].
      split; [congruence|]. split; [congruence|].
      intros k Hk. destruct (Hframe k Hk) as [-> ->]. by apply Hframe1.
Qed.
End LoopCompletes.


(** One bucket of [generate], with what it leaves of the two stores. *)
Lemma bucket_completes fuel count (stores : Buckets * Buckets)
    (bucket : Z) difficulty σ :
  name stores.1 = lit "adj" → name stores.2 = lit "nouns" →
  DIFFICULTY bucket = Some difficulty →
  (count ≤ Z.of_nat fuel)%Z →
  pool stores.1 bucket (fs σ) ≠ [] →
  pool stores.2 bucket (fs σ) ≠ [] →
  (∀ adj_lemma noun,
     adj_lemma ∈ pool stores.1 bucket (fs σ) →
     noun ∈ pool stores.2 bucket (fs σ) →
     is_Some (line_for adj_lemma noun)) →
  ∃ stores' σ' lines,
    generate_bucket b upper NounPhrase jdump fuel count stores bucket σ
    = (Ret stores', σ')
    ∧ Z.of_nat (length lines) = Z.max 0 count
    ∧ fs σ' = <[output_file difficulty := file_of_lines lines]> (fs σ)
    ∧ Forall (λ line, ∃ adj_lemma noun,
                adj_lemma ∈ pool stores.1 bucket (fs σ)
                ∧ noun ∈ pool stores.2 bucket (fs σ)
                ∧ line_for adj_lemma noun = Some line) lines
    ∧ rng σ' = rng σ
    ∧ drawn σ' = drawn σ + 2 * length lines
    ∧ name stores'.1 = lit "adj" ∧ name stores'.2 = lit "nouns"
    ∧ ∀ k : Z, k ≠ bucket →
        lemmas stores'.1 !! k = lemmas stores.1 !! k
        ∧ lemmas stores'.2 !! k = lemmas stores.2 !! k.
Proof.
  intros Hadj Hnoun Hd Hfuel Ha Hn Hforms.
  rewrite (generate_bucket_run _ _ _ _ _ _ _ _ difficulty) by done.
  set (out := output_file difficulty).
  destruct (loop_completes count out bucket (pool stores.1 bucket (fs σ))
              (pool stores.2 bucket (fs σ)) Ha Hn Hforms fuel
              (mkGen 0 stores.1 stores.2) (open_w out σ).2 [])
    as (st' & σ' & lines & Hloop & _ & Hlen & Hfs & Hlines & Hrng & Hdrawn
        & Hna & Hnn & Hframe).
  - cbn [gen_c]. lia.
  - cbn [adj_buckets]. by apply pool_open_w; left.
  - cbn [noun_buckets]. by apply pool_open_w; right.
  - cbn. apply lookup_insert_eq.
  - rewrite Hloop. eexists _, σ', lines. split; [done|].
    split; [cbn [gen_c] in Hlen; lia|]. split.
    { rewrite Hfs. cbn. by rewrite insert_insert_eq. }
    split; [done|]. split; [done|]. split; [done|].
    cbn [fst snd adj_buckets noun_buckets] in *.
    split; [congruence|]. split; [congruence|]. done.
Qed.




End GenerateExtras.


Section PipelineExtras.
Variable isupper : N → bool.
Variable b : Bin.
Variable ngrams : list N → Z.
Variable upper : list N → list N.
Variable NounPhrase : str → str → str → str.
Variable jdump : json → list N.
Implicit Types σ : World.


End PipelineExtras.

(** ** The further properties on the small dictionary *)

Section ExtraWitnesses.



















End ExtraWitnesses.
